(** * Live trip tracking, geofencing and emergency dispatch

    A shallow embedding of [src/services/realTimeTracking.ts] (the
    [RealTimeTrackingService] class) and of [twilioService.sendSMS] /
    [twilioService.sendEmergencySMS], with the properties the specification
    states about them.

    Conventions of the embedding
    - Numbers. [GeoMath] reads a JavaScript [number] that carries a
      measured quantity (degrees, metres, km/h, seconds) as an ideal real of
      [R]: what the formulas compute in exact arithmetic. [GeoDouble] reads
      the geofence test on binary64 doubles, where rounding and NaN show.
    - Asynchrony. [Tracking] runs every call to completion: each [await] has
      settled when the next call of the service is issued. [Interleaving]
      splits [unsubscribe] and the interval callback of [monitorPickupZone]
      at their [await], so that calls can overlap.
    - Collaborators (the store, the SMS and push senders, [fetch], the
      position source, timers) are not part of the repository; their answers
      are inputs of the model and their invocations are recorded. *)

From Stdlib Require Import Floats Reals Lra Lia ZArith.
From stdpp Require Import gmap strings pretty list.

(** ** GeoMath: great-circle distance, ETA estimate, geofence test *)

Module GeoMath.

Local Open Scope R_scope.

(** [{ lat: number; lng: number }], in degrees. *)
Record LatLng := mkLatLng { lat : R; lng : R }.

(** [Math.atan2(y, x)]: the angle of the point [(x, y)], in (-PI, PI]. *)
Definition Math_atan2 (y x : R) : R :=
  if Rlt_dec 0 x then atan (y / x)
  else if Rlt_dec x 0 then
    (if Rle_dec 0 y then atan (y / x) + PI else atan (y / x) - PI)
  else if Rlt_dec 0 y then PI / 2
  else if Rlt_dec y 0 then - (PI / 2)
  else 0.

(** [Math.round(x)]: the nearest integer, ties toward +infinity, that is
    floor(x + 0.5). *)
Definition Math_round (x : R) : Z := Int_part (x + / 2).

(** Time value of [new Date(ms)] for a real number of milliseconds: the
    constructor truncates toward zero. Beyond 8.64e15 ms either way, and
    for NaN, the constructor gives an Invalid Date, which the exact reading
    leaves out. *)
Definition Date_of_ms (ms : R) : Z :=
  if Rle_dec 0 ms then Int_part ms else (- Int_part (- ms))%Z.

(** Return value of [calculateETA]. *)
Record ETA := mkETA { eta : Z; distance : Z; duration : Z }.

(** [calculateETA(currentLocation, destination, currentSpeed)] in exact
    arithmetic; [now] is the value of [Date.now()] at the call. *)
Definition calculateETA (now : Z) (currentLocation destination : LatLng)
    (currentSpeed : R) : ETA :=
  let R_earth := 6371000 in
  let phi1 := (lat currentLocation * PI) / 180 in
  let phi2 := (lat destination * PI) / 180 in
  let dphi := ((lat destination - lat currentLocation) * PI) / 180 in
  let dlam := ((lng destination - lng currentLocation) * PI) / 180 in
  let a :=
    sin (dphi / 2) * sin (dphi / 2) +
    cos phi1 * cos phi2 * sin (dlam / 2) * sin (dlam / 2) in
  let c := 2 * Math_atan2 (sqrt a) (sqrt (1 - a)) in
  let distance := R_earth * c in
  let speed := if Rlt_dec 0 currentSpeed then currentSpeed / (36 / 10)
               else 1389 / 100 in
  let duration := distance / speed in
  let eta := Date_of_ms (IZR now + duration * 1000) in
  {| eta := eta;
     distance := Math_round distance;
     duration := Math_round duration |}.

(** [isWithinGeofence(location, center, radiusMeters)] in exact arithmetic;
    [GeoDouble.isWithinGeofence] is the same method on doubles. *)
Definition isWithinGeofence (location center : LatLng) (radiusMeters : R)
    : bool :=
  let R_earth := 6371000 in
  let phi1 := (lat location * PI) / 180 in
  let phi2 := (lat center * PI) / 180 in
  let dphi := ((lat center - lat location) * PI) / 180 in
  let dlam := ((lng center - lng location) * PI) / 180 in
  let a :=
    sin (dphi / 2) * sin (dphi / 2) +
    cos phi1 * cos phi2 * sin (dlam / 2) * sin (dlam / 2) in
  let c := 2 * Math_atan2 (sqrt a) (sqrt (1 - a)) in
  let distance := R_earth * c in
  if Rle_dec distance radiusMeters then true else false.

(** The specification's [distanceMeters(a, b)]: "haversine great-circle
    distance using Earth radius 6,371,000 m", written from those words in
    the textbook form d = 2 r asin (sqrt h), where h is the haversine of the
    central angle. It is compared with what the two methods above compute
    inline. *)
Definition radians (deg : R) : R := deg * PI / 180.

Definition hav (theta : R) : R := (sin (theta / 2))².

Definition distanceMeters (a b : LatLng) : R :=
  let h := hav (radians (lat b) - radians (lat a))
           + cos (radians (lat a)) * cos (radians (lat b))
             * hav (radians (lng b) - radians (lng a)) in
  2 * 6371000 * asin (sqrt h).

(** Two sample points on the equator, 13,890 m apart. *)
Definition origin : LatLng := mkLatLng 0 0.
Definition east_13890m : LatLng := mkLatLng 0 (13890 / 6371000 * 180 / PI).

End GeoMath.

(** ** GeoDouble: the geofence test on IEEE 754 doubles

    The same method read with the numbers JavaScript has: binary64 values,
    every operation rounded, NaN where an operation has no result.
    [Math.sin], [Math.cos] and [Math.atan2] are implementation-approximated
    (ECMA-262, 21.3.2): they are parameters here, and a statement names the
    values it needs of them. *)

Module GeoDouble.

Local Open Scope float_scope.

(** [{ lat: number; lng: number }], in degrees. *)
Record LatLng := mkLatLng { lat : float; lng : float }.

(** The [Math] functions the method calls besides [Math.sqrt]. *)
Record MathLib := mkMathLib {
  Math_sin : float → float;
  Math_cos : float → float;
  Math_atan2 : float → float → float
}.

(** [Math.PI], the double nearest to pi, and [Math.sqrt]. *)
Definition Math_PI : float := 0x1.921fb54442d18p+1.
Definition Math_sqrt (x : float) : float := PrimFloat.sqrt x.

(** The term [a] of the haversine formula as the method computes it. *)
Definition haversineTerm (math : MathLib) (location center : LatLng) : float :=
  let phi1 := (lat location * Math_PI) / 180 in
  let phi2 := (lat center * Math_PI) / 180 in
  let dphi := ((lat center - lat location) * Math_PI) / 180 in
  let dlam := ((lng center - lng location) * Math_PI) / 180 in
  Math_sin math (dphi / 2) * Math_sin math (dphi / 2)
  + Math_cos math phi1 * Math_cos math phi2
    * Math_sin math (dlam / 2) * Math_sin math (dlam / 2).

(** [isWithinGeofence(location, center, radiusMeters)]. *)
Definition isWithinGeofence (math : MathLib) (location center : LatLng)
    (radiusMeters : float) : bool :=
  let R_earth := 6371e3 in
  let a := haversineTerm math location center in
  let c := 2 * Math_atan2 math (Math_sqrt a) (Math_sqrt (1 - a)) in
  let distance := R_earth * c in
  distance <=? radiusMeters.

(** Two points opposite each other on the globe: 7.36 N 0 E and
    7.36 S 180 E. *)
Definition north : LatLng := mkLatLng 0x1.d70a3d70a3d71p+2 0.
Definition south : LatLng := mkLatLng (-0x1.d70a3d70a3d71p+2) 180.

(** A [Math] library that is only known at the arguments the method passes
    for these two points, with the correctly rounded values there; its
    [atan2] is NaN exactly when an argument is. *)
Definition sampleMath : MathLib :=
  {| Math_sin := λ x,
       if x =? -0x1.07140fbbca520p-3 then -0x1.065afeeb46c2cp-3
       else if x =? 0x1.921fb54442d18p+0 then 1
       else nan;
     Math_cos := λ x,
       if abs x =? 0x1.07140fbbca520p-3 then 0x1.fbc81390bdb00p-1
       else nan;
     Math_atan2 := λ y x, if is_nan x || is_nan y then nan else 0 |}.

End GeoDouble.

(** ** JavaScript values and operators used by the service *)

Module Js.

(** Result of a call that may raise, or of a promise that may reject. *)
Inductive Outcome (A : Type) : Type :=
| Returns (a : A)
| Throws (e : string).
Arguments Returns {A} a.
Arguments Throws {A} e.

(** [x || d] on strings and numbers: null, undefined, the empty string and
    zero all give [d]. *)
Definition or_string (x : option string) (d : string) : string :=
  match x with
  | Some s => if decide (s = "") then d else s
  | None => d
  end.
Definition or_number (x : option R) (d : R) : R :=
  match x with
  | Some v => if Req_dec_T v 0 then d else v
  | None => d
  end.

(** [Boolean(x)] for an id, as used by [.filter(Boolean)]. *)
Definition truthy (x : option string) : option string :=
  match x with
  | Some s => if decide (s = "") then None else Some s
  | None => None
  end.

(** [!x] for an object or null. *)
Definition is_null {A} (x : option A) : bool :=
  match x with Some _ => false | None => true end.

(** The newline of a template literal. *)
Definition nl : string := String (Ascii.ascii_of_nat 10) EmptyString.

End Js.

(** ** The tracking service: channel registry, location stream, geofence monitor *)

Module Tracking.
Import GeoMath Js.

(** What [supabase.channel(name).on('postgres_changes', {...}, cb)] is asked
    to deliver. *)
Record RealtimeChannel := mkChannel {
  ch_topic : string;
  ch_event : string;
  ch_table : string;
  ch_filter : string
}.

(** The closure of the interval callback of [monitorPickupZone]. *)
Record Monitor := mkMonitor {
  m_tripId : string;
  m_pickup : LatLng;
  m_radius : R
}.

(** The private fields of [RealTimeTrackingService]. A [RealtimeChannel]
    object is held by identity, a natural number here. *)
Record Service := mkService {
  channels : gmap string nat;
  locationWatchId : option nat;
  currentTripId : option string
}.

(** The realtime client: channels currently joined, by identity; how many
    were ever opened (the next identity); how often [removeChannel] was
    called. *)
Record Supabase := mkSupabase {
  joined : gmap nat RealtimeChannel;
  opened : nat;
  removeCalls : nat
}.

(** [navigator.geolocation]: whether the platform has it, and the watches
    registered with [watchPosition]. *)
Record Navigator := mkNavigator {
  geolocation : bool;
  watches : gset nat;
  nextWatch : nat
}.

(** Timers of [setInterval], with the closure each one runs. *)
Record Timers := mkTimers {
  intervals : gmap nat Monitor;
  nextInterval : nat
}.

Record World := mkWorld {
  service : Service;
  supabase : Supabase;
  navigator : Navigator;
  timers : Timers;
  polls : list nat;       (* store queries issued by interval callbacks *)
  arrivals : list nat;    (* [onArrival] invocations, by interval *)
  console : list string   (* [console.warn] / [console.error] lines *)
}.

Definition set_service (f : Service → Service) (w : World) : World :=
  mkWorld (f (service w)) (supabase w) (navigator w) (timers w)
          (polls w) (arrivals w) (console w).
Definition set_supabase (f : Supabase → Supabase) (w : World) : World :=
  mkWorld (service w) (f (supabase w)) (navigator w) (timers w)
          (polls w) (arrivals w) (console w).
Definition set_navigator (f : Navigator → Navigator) (w : World) : World :=
  mkWorld (service w) (supabase w) (f (navigator w)) (timers w)
          (polls w) (arrivals w) (console w).
Definition set_timers (f : Timers → Timers) (w : World) : World :=
  mkWorld (service w) (supabase w) (navigator w) (f (timers w))
          (polls w) (arrivals w) (console w).
Definition log (line : string) (w : World) : World :=
  mkWorld (service w) (supabase w) (navigator w) (timers w)
          (polls w) (arrivals w) (console w ++ [line]).

(** A freshly constructed service on a platform with or without a position
    source. *)
Definition init (hasGeolocation : bool) : World :=
  mkWorld (mkService ∅ None None) (mkSupabase ∅ 0 0)
          (mkNavigator hasGeolocation ∅ 0) (mkTimers ∅ 0) [] [] [].

(** *** Location stream *)

(** [startLocationTracking(tripId, onUpdate, onError)]. *)
Definition startLocationTracking (tripId : string) (w : World) : World * bool :=
  if negb (geolocation (navigator w)) then
    (log "Geolocation not supported" w, false)
  else
    let id := nextWatch (navigator w) in
    let w := set_service (λ s, mkService (channels s) (locationWatchId s)
                                         (Some tripId)) w in
    let w := set_navigator (λ n, mkNavigator (geolocation n)
                                   ({[id]} ∪ watches n) (S (nextWatch n))) w in
    let w := set_service (λ s, mkService (channels s) (Some id)
                                         (currentTripId s)) w in
    (w, true).

(** [navigator.geolocation.clearWatch(id)]; reading a property of an absent
    [navigator.geolocation] raises a TypeError. *)
Definition clearWatch (id : nat) (w : World) : Outcome World :=
  if geolocation (navigator w) then
    Returns (set_navigator (λ n, mkNavigator (geolocation n)
                                   (watches n ∖ {[id]}) (nextWatch n)) w)
  else Throws "TypeError".

(** [stopLocationTracking()]. *)
Definition stopLocationTracking (w : World) : Outcome World :=
  let clear_id s := mkService (channels s) None (currentTripId s) in
  let clear_trip s := mkService (channels s) (locationWatchId s) None in
  match locationWatchId (service w) with
  | Some id =>
      match clearWatch id w with
      | Returns w => Returns (set_service clear_trip (set_service clear_id w))
      | Throws e => Throws e
      end
  | None => Returns (set_service clear_trip w)
  end.

(** *** Realtime subscriptions *)

(** [supabase.channel(name).on(...).subscribe()]: a new channel object. *)
Definition openChannel (ch : RealtimeChannel) (w : World) : World * nat :=
  let c := opened (supabase w) in
  (set_supabase (λ b, mkSupabase (<[c := ch]> (joined b)) (S (opened b))
                                 (removeCalls b)) w, c).

(** [supabase.removeChannel(channel)]. *)
Definition removeChannel (c : nat) (w : World) : World :=
  set_supabase (λ b, mkSupabase (delete c (joined b)) (opened b)
                                (S (removeCalls b))) w.

(** [this.channels.set(name, channel)] and [this.channels.delete(name)]. *)
Definition channels_set (name : string) (c : nat) (w : World) : World :=
  set_service (λ s, mkService (<[name := c]> (channels s))
                              (locationWatchId s) (currentTripId s)) w.
Definition channels_delete (name : string) (w : World) : World :=
  set_service (λ s, mkService (delete name (channels s))
                              (locationWatchId s) (currentTripId s)) w.

(** The three cancel closures handed out by the service. The closure
    [() => this.unsubscribe(channelName)] captures the channel's name, the
    closure [() => clearInterval(intervalId)] the interval's id;
    [stopLocationTracking] is the method that ends the location stream. *)
Inductive CancelHandle :=
| ChannelCancel (channelName : string)
| LocationStop
| IntervalCancel (intervalId : nat).

(** [subscribeToDriverLocation(tripId, driverId, onUpdate)]. *)
Definition subscribeToDriverLocation (tripId driverId : string) (w : World)
    : World * CancelHandle :=
  let channelName := "trip:" +:+ tripId +:+ ":driver:" +:+ driverId in
  if decide (is_Some (channels (service w) !! channelName)) then
    (log "Already subscribed to driver location" w, ChannelCancel channelName)
  else
    let '(w, channel) :=
      openChannel
        (mkChannel channelName "UPDATE" "live_locations"
           ("trip_id=eq." +:+ tripId +:+ ",user_id=eq." +:+ driverId)) w in
    (channels_set channelName channel w, ChannelCancel channelName).

(** [subscribeToTripStatus(tripId, onUpdate)]. *)
Definition subscribeToTripStatus (tripId : string) (w : World)
    : World * CancelHandle :=
  let channelName := "trip:" +:+ tripId +:+ ":status" in
  if decide (is_Some (channels (service w) !! channelName)) then
    (log "Already subscribed to trip status" w, ChannelCancel channelName)
  else
    let '(w, channel) :=
      openChannel
        (mkChannel channelName "UPDATE" "trips" ("id=eq." +:+ tripId)) w in
    (channels_set channelName channel w, ChannelCancel channelName).

(** [subscribeToPassengers(tripId, onUpdate)]. *)
Definition subscribeToPassengers (tripId : string) (w : World)
    : World * CancelHandle :=
  let channelName := "trip:" +:+ tripId +:+ ":passengers" in
  if decide (is_Some (channels (service w) !! channelName)) then
    (log "Already subscribed to passengers" w, ChannelCancel channelName)
  else
    let '(w, channel) :=
      openChannel
        (mkChannel channelName "*" "live_locations"
           ("trip_id=eq." +:+ tripId)) w in
    (channels_set channelName channel w, ChannelCancel channelName).

(** [unsubscribe(channelName)], run to completion;
    [Interleaving.unsubscribe_begin] and [Interleaving.unsubscribe_resume]
    are its two halves. *)
Definition unsubscribe (channelName : string) (w : World) : World :=
  match channels (service w) !! channelName with
  | Some channel => channels_delete channelName (removeChannel channel w)
  | None => w
  end.

(** [unsubscribeAll()]: one [unsubscribe] per key of the map, then
    [stopLocationTracking]. The Map is walked in insertion order; no
    component of the world depends on that order. *)
Definition unsubscribeAll (w : World) : Outcome World :=
  stopLocationTracking
    (foldr (λ kc w, unsubscribe kc.1 w) w (map_to_list (channels (service w)))).

(** *** Geofence monitor *)

(** [setInterval(callback, 5000)] and [clearInterval(id)]. *)
Definition setInterval (m : Monitor) (w : World) : World * nat :=
  let id := nextInterval (timers w) in
  (set_timers (λ t, mkTimers (<[id := m]> (intervals t))
                             (S (nextInterval t))) w, id).
Definition clearInterval (id : nat) (w : World) : World :=
  set_timers (λ t, mkTimers (delete id (intervals t)) (nextInterval t)) w.

(** [monitorPickupZone(tripId, pickupLocation, radiusMeters = 100, onArrival)];
    an omitted radius is [None]. *)
Definition monitorPickupZone (tripId : string) (pickupLocation : LatLng)
    (radiusMeters : option R) (w : World) : World * CancelHandle :=
  let radiusMeters := default 100%R radiusMeters in
  let '(w, intervalId) :=
    setInterval (mkMonitor tripId pickupLocation radiusMeters) w in
  (w, IntervalCancel intervalId).

(** Answer of the store to the query of one tick
    ([.order('updated_at', desc).limit(1).single()]): the promise rejects, or
    it resolves with [data] null (no row, or an error reported by the
    store), or with the newest row, whose [coordinates] may be null. *)
Inductive PollResult :=
| PollRejects
| PollNoData
| PollRow (coordinates : option LatLng).

(** One run of the interval callback of monitor [m], registered under
    [intervalId], run to completion with an [onArrival] that returns;
    [Interleaving.callback_begin] and [Interleaving.callback_resume] are its
    two halves. *)
Definition pollTick (intervalId : nat) (m : Monitor) (r : PollResult)
    (w : World) : World :=
  let w := mkWorld (service w) (supabase w) (navigator w) (timers w)
                   (polls w ++ [intervalId]) (arrivals w) (console w) in
  match r with
  | PollRow (Some coordinates) =>
      if isWithinGeofence coordinates (m_pickup m) (m_radius m) then
        let w := mkWorld (service w) (supabase w) (navigator w) (timers w)
                         (polls w) (arrivals w ++ [intervalId]) (console w) in
        clearInterval intervalId w
      else w
  | _ => w
  end.

(** The timer fires: the callback runs if the interval is still registered. *)
Definition tick (intervalId : nat) (r : PollResult) (w : World) : World :=
  match intervals (timers w) !! intervalId with
  | Some m => pollTick intervalId m r w
  | None => w
  end.

(** The timer fires once per element of [rs], every five seconds. *)
Definition ticks (intervalId : nat) (rs : list PollResult) (w : World) : World :=
  foldl (λ w r, tick intervalId r w) w rs.

(** *** Calls of the service and reachable worlds *)

(** Invoking a cancel handle. *)
Definition invoke (h : CancelHandle) (w : World) : Outcome World :=
  match h with
  | ChannelCancel channelName => Returns (unsubscribe channelName w)
  | LocationStop => stopLocationTracking w
  | IntervalCancel intervalId => Returns (clearInterval intervalId w)
  end.

(** A subscribe call with its arguments (the callback apart). *)
Inductive Subscription :=
| DriverLocation (tripId driverId : string)
| TripStatus (tripId : string)
| Passengers (tripId : string).

(** The key a subscribe call registers itself under: the template literal
    that opens each of the three methods. *)
Definition channelName (s : Subscription) : string :=
  match s with
  | DriverLocation tripId driverId =>
      "trip:" +:+ tripId +:+ ":driver:" +:+ driverId
  | TripStatus tripId => "trip:" +:+ tripId +:+ ":status"
  | Passengers tripId => "trip:" +:+ tripId +:+ ":passengers"
  end.

Definition subscribeTo (s : Subscription) (w : World) : World * CancelHandle :=
  match s with
  | DriverLocation tripId driverId => subscribeToDriverLocation tripId driverId w
  | TripStatus tripId => subscribeToTripStatus tripId w
  | Passengers tripId => subscribeToPassengers tripId w
  end.

Inductive Call :=
| StartLocationTracking (tripId : string)
| Subscribe (s : Subscription)
| UnsubscribeAll
| MonitorPickupZone (tripId : string) (pickup : LatLng) (radius : option R)
| Cancel (h : CancelHandle)
| TimerFires (intervalId : nat) (r : PollResult).

Definition call (c : Call) (w : World) : Outcome World :=
  match c with
  | StartLocationTracking tripId => Returns (startLocationTracking tripId w).1
  | Subscribe s => Returns (subscribeTo s w).1
  | UnsubscribeAll => unsubscribeAll w
  | MonitorPickupZone tripId pickup radius =>
      Returns (monitorPickupZone tripId pickup radius w).1
  | Cancel h => invoke h w
  | TimerFires intervalId r => Returns (tick intervalId r w)
  end.

(** Worlds a service instance can be in: any sequence of calls from a fresh
    instance. *)
Inductive reachable : World → Prop :=
| reachable_init hasGeolocation : reachable (init hasGeolocation)
| reachable_call c w w' :
    reachable w → call c w = Returns w' → reachable w'.

(** Channels joined in the realtime client under a given name. *)
Definition live (name : string) (w : World) : gmap nat RealtimeChannel :=
  filter (λ kc, ch_topic kc.2 = name) (joined (supabase w)).

(** [n] more store queries by interval [id], and nothing else. *)
Definition polled (id : nat) (n : nat) (w : World) : World :=
  mkWorld (service w) (supabase w) (navigator w) (timers w)
          (polls w ++ replicate n id) (arrivals w) (console w).

(** Whether a poll answer carries a position inside the geofence. *)
Definition arrived (center : LatLng) (radius : R) (r : PollResult) : bool :=
  match r with
  | PollRow (Some coordinates) => isWithinGeofence coordinates center radius
  | _ => false
  end.

(** The resource behind a handle is gone: the key is not registered, no
    watch is held, the interval is not registered. *)
Definition ended (h : CancelHandle) (w : World) : Prop :=
  match h with
  | ChannelCancel name => channels (service w) !! name = None
  | LocationStop =>
      locationWatchId (service w) = None ∧ currentTripId (service w) = None
  | IntervalCancel id => intervals (timers w) !! id = None
  end.

(** The registry and the realtime client agree: every key of the map names
    a joined channel opened under that key, every joined channel is the one
    registered under its name, identities are fresh, and a watch id is only
    held where the platform has a position source. *)
Record Inv (w : World) : Prop := {
  inv_registered : ∀ k c, channels (service w) !! k = Some c →
      ∃ ch, joined (supabase w) !! c = Some ch ∧ ch_topic ch = k;
  inv_joined : ∀ c ch, joined (supabase w) !! c = Some ch →
      channels (service w) !! ch_topic ch = Some c;
  inv_fresh : ∀ c, is_Some (joined (supabase w) !! c) → c < opened (supabase w);
  inv_watch : is_Some (locationWatchId (service w)) →
      geolocation (navigator w) = true
}.

End Tracking.

(** ** Calls that overlap

    [unsubscribe] and the interval callback of [monitorPickupZone] are
    [async]: each runs up to its [await], and its rest runs when the awaited
    promise settles. What the service is asked to do in between runs in
    between. The definitions of [Tracking] take such a call as one step;
    here it is two. *)

Module Interleaving.
Import GeoMath Js Tracking.

(** A call that has reached its [await], with what it still has to do:
    [this.channels.delete(channelName)] for [unsubscribe], the
    [if (data && data.coordinates)] block for the interval callback. *)
Inductive Suspended :=
| AwaitsRemoveChannel (channelName : string)
| AwaitsQuery (intervalId : nat) (m : Monitor).

Record Running := mkRunning {
  world : World;
  suspended : list Suspended
}.

Definition start (w : World) : Running := mkRunning w [].

(** [unsubscribe(channelName)] up to [await supabase.removeChannel(channel)],
    and its rest. *)
Definition unsubscribe_begin (channelName : string) (a : Running) : Running :=
  match channels (service (world a)) !! channelName with
  | Some channel =>
      mkRunning (removeChannel channel (world a))
                (suspended a ++ [AwaitsRemoveChannel channelName])
  | None => a
  end.
Definition unsubscribe_resume (channelName : string) (w : World) : World :=
  channels_delete channelName w.

(** The interval callback up to the [await] of its store query, and its
    rest, given the answer of the store and what [onArrival] does when it is
    invoked: an [onArrival] that raises leaves the interval registered. *)
Definition callback_begin (intervalId : nat) (a : Running) : Running :=
  match intervals (timers (world a)) !! intervalId with
  | Some m =>
      let w := world a in
      mkRunning (mkWorld (service w) (supabase w) (navigator w) (timers w)
                         (polls w ++ [intervalId]) (arrivals w) (console w))
                (suspended a ++ [AwaitsQuery intervalId m])
  | None => a
  end.
Definition callback_resume (intervalId : nat) (m : Monitor) (r : PollResult)
    (onArrival : Outcome unit) (w : World) : World :=
  match r with
  | PollRow (Some coordinates) =>
      if isWithinGeofence coordinates (m_pickup m) (m_radius m) then
        let w := mkWorld (service w) (supabase w) (navigator w) (timers w)
                         (polls w) (arrivals w ++ [intervalId]) (console w) in
        match onArrival with
        | Returns _ => clearInterval intervalId w
        | Throws _ => w
        end
      else w
  | _ => w
  end.

(** What can happen next: a subscribe call, the invocation of a cancel
    closure, the timer of an interval firing, and the promise of the [n]-th
    suspended call settling. *)
Inductive Step :=
| Subscribes (s : Subscription)
| Invokes (h : CancelHandle)
| Fires (intervalId : nat)
| RemoveChannelSettles (n : nat)
| QueryAnswers (n : nat) (r : PollResult) (onArrival : Outcome unit).

Definition step (s : Step) (a : Running) : Running :=
  match s with
  | Subscribes sub => mkRunning (subscribeTo sub (world a)).1 (suspended a)
  | Invokes (ChannelCancel channelName) => unsubscribe_begin channelName a
  | Invokes h =>
      match invoke h (world a) with
      | Returns w => mkRunning w (suspended a)
      | Throws _ => a
      end
  | Fires intervalId => callback_begin intervalId a
  | RemoveChannelSettles n =>
      match suspended a !! n with
      | Some (AwaitsRemoveChannel channelName) =>
          mkRunning (unsubscribe_resume channelName (world a))
                    (delete n (suspended a))
      | _ => a
      end
  | QueryAnswers n r onArrival =>
      match suspended a !! n with
      | Some (AwaitsQuery intervalId m) =>
          mkRunning (callback_resume intervalId m r onArrival (world a))
                    (delete n (suspended a))
      | _ => a
      end
  end.

Definition schedule (ss : list Step) (a : Running) : Running :=
  foldl (λ a s, step s a) a ss.

(** Identities of joined channels are below the next identity. *)
Definition fresh (w : World) : Prop :=
  ∀ c, is_Some (joined (supabase w) !! c) → c < opened (supabase w).

End Interleaving.

(** ** Store writes, location publishing and the emergency dispatcher *)

Module Dispatch.
Import GeoMath Js.

(** *** Data exchanged with the collaborators *)

(** [GeolocationPosition.coords]; [heading] and [speed] may be null, or
    NaN, which [|| 0] treats alike: both are [None] here. *)
Record Coords := mkCoords {
  latitude : R;
  longitude : R;
  c_heading : option R;
  c_speed : option R;
  c_accuracy : R
}.

(** The object upserted into [live_locations]. *)
Record LiveLocationRow := mkLiveLocationRow {
  ll_trip_id : string;
  ll_user_id : string;
  ll_coordinates : LatLng;
  ll_heading : R;
  ll_speed : R;
  ll_accuracy : R;
  ll_updated_at : Z
}.

(** A [Date] object: one with a time value, in milliseconds, or an Invalid
    Date (as [new Date(NaN)] is). *)
Inductive JsDate :=
| ValidDate (ms : Z)
| InvalidDate.

(** [TripStatus['status']]. *)
Inductive Status :=
| waiting | arriving | picked_up | in_progress | completed | cancelled.

(** The object passed to [.update()] on [trips]; time values stand for
    their [toISOString()]. *)
Record TripUpdate := mkTripUpdate {
  tu_status : Status;
  tu_eta : option Z;
  tu_distance_remaining : option R;
  tu_duration_remaining : option R;
  tu_updated_at : Z
}.

(** The object inserted into [emergency_alerts]. *)
Record AlertRow := mkAlertRow {
  al_trip_id : string;
  al_user_id : string;
  al_location : LatLng;
  al_reason : option string;
  al_status : string;
  al_created_at : Z
}.

Record Contact := mkContact { name : string; phone : string }.

(** Result of [select('full_name, emergency_contacts')]. *)
Record Profile := mkProfile {
  full_name : option string;
  emergency_contacts : option (list Contact)
}.

(** Result of [select('driver_id, bookings(passenger_id)')]. *)
Record TripParticipants := mkTripParticipants {
  driver_id : option string;
  bookings : option (list (option string))   (* each booking's passenger_id *)
}.

(** The notification handed to [sendPushNotification]. *)
Record PushPayload := mkPushPayload {
  title : string;
  body : string;
  data_type : string;
  data_tripId : string;
  data_location : LatLng     (* stands for [JSON.stringify(location)] *)
}.

(** Request bodies, before [JSON.stringify]. *)
Inductive FetchBody :=
| SmsBody (to message : string)
| EmergencyBody (tripId userId : string) (location : LatLng) (timestamp : Z).

(** A parsed JSON answer of the backend. *)
Record Json := mkJson {
  j_message : option string;
  j_messageSid : option string
}.

(** A [Response]: its [ok] flag and what [response.json()] does. *)
Record Response := mkResponse { ok : bool; json : Outcome Json }.

(** Return value of [twilioService.sendSMS]. *)
Record SmsResult := mkSmsResult {
  success : bool;
  sms_messageSid : option string;
  sms_error : option string
}.

(** *** Recorded interactions

    One event per collaborator call, with the answer it got. [SendSMS] is
    recorded when [twilioService.sendSMS] returns. *)
Inductive Event :=
| GetUser (r : Outcome (option string))
| UpsertLiveLocation (row : LiveLocationRow) (r : Outcome unit)
| UpdateTrip (tripId : string) (fields : TripUpdate) (r : Outcome (option string))
| InsertEmergencyAlert (row : AlertRow) (r : Outcome (option string))
| SelectProfile (userId : string) (r : Outcome (option Profile))
| SelectTrip (tripId : string) (r : Outcome (option TripParticipants))
| Import (path : string) (r : Outcome unit)
| Fetch (url : string) (body : FetchBody) (r : Outcome Response)
| SendSMS (to message : string) (r : SmsResult)
| SendPushNotification (participantId : string) (payload : PushPayload)
    (r : Outcome unit)
| Console (level line : string).

(** The collaborators: each answers a call knowing everything that has
    happened so far. *)
Record Env := mkEnv {
  numberToString : R → string;      (* a number inside a template literal *)
  process_env : string → option string;
  twilio_enabled : bool;            (* INTEGRATION_CONFIG.twilio.enabled *)
  clock : list Event → Z;           (* Date.now(), new Date() *)
  auth_getUser : list Event → Outcome (option string);
  live_locations_upsert : list Event → LiveLocationRow → Outcome unit;
  trips_update : list Event → string → TripUpdate → Outcome (option string);
  emergency_alerts_insert : list Event → AlertRow → Outcome (option string);
  profiles_select : list Event → string → Outcome (option Profile);
  trips_select : list Event → string → Outcome (option TripParticipants);
  dynamic_import : list Event → string → Outcome unit;
  fetch : list Event → string → FetchBody → Outcome Response;
  sendPushNotification : list Event → string → PushPayload → Outcome unit
}.

(** *** Computations: a trace of events threaded through, and exceptions *)

Definition M (A : Type) : Type := list Event → Outcome A * list Event.

Definition ret {A} (a : A) : M A := λ t, (Returns a, t).
Definition throw {A} (e : string) : M A := λ t, (Throws e, t).
Definition bind {A B} (m : M A) (k : A → M B) : M B :=
  λ t, match m t with
       | (Returns a, t') => k a t'
       | (Throws e, t') => (Throws e, t')
       end.
(** [try { m } catch (e) { h e }]. *)
Definition try_catch {A} (m : M A) (h : string → M A) : M A :=
  λ t, match m t with
       | (Returns a, t') => (Returns a, t')
       | (Throws e, t') => h e t'
       end.

Notation "'let*' x ':=' m 'in' k" := (bind m (λ x, k))
  (at level 10, x name, m at level 100, k at level 200).
Notation "'do' m 'then' k" := (bind m (λ _, k))
  (at level 10, m at level 100, k at level 200).

(** [await] of a collaborator call: ask, record call and answer, and raise
    if the promise rejected. *)
Definition await {A} (answer : list Event → Outcome A)
    (record : Outcome A → Event) : M A :=
  λ t, let r := answer t in (r, t ++ [record r]).

(** [await] of a promise whose fate is already known. *)
Definition settle {A} (r : Outcome A) : M A := λ t, (r, t).

(** An expression that is evaluated on the spot and may raise. *)
Definition evaluate {A} (r : Outcome A) : M A := λ t, (r, t).

(** Record one event. *)
Definition emit (e : Event) : M unit := λ t, (Returns (), t ++ [e]).

(** [date.toISOString()], which raises a RangeError on an Invalid Date, and
    [date?.toISOString()] for an optional date; the string is represented
    by the time value it spells. *)
Definition toISOString (date : JsDate) : Outcome Z :=
  match date with
  | ValidDate ms => Returns ms
  | InvalidDate => Throws "Invalid time value"
  end.
Definition optional_toISOString (date : option JsDate) : Outcome (option Z) :=
  match date with
  | Some date =>
      match toISOString date with
      | Returns iso => Returns (Some iso)
      | Throws e => Throws e
      end
  | None => Returns None
  end.

(** [console.log], [console.warn], [console.error]. *)
Definition console (level line : string) : M unit :=
  emit (Console level line).

Section WithEnv.
Context (env : Env).

Definition now : M Z := λ t, (Returns (clock env t), t).

(** *** [broadcastLocation(tripId, position)] *)
Definition broadcastLocation (tripId : string) (coords : Coords) : M unit :=
  let* user := await (auth_getUser env) GetUser in
  let* timestamp := now in
  let locationUpdate :=
    mkLiveLocationRow tripId (or_string user "")
      (mkLatLng (latitude coords) (longitude coords))
      (or_number (c_heading coords) 0)
      (or_number (c_speed coords) 0)
      (c_accuracy coords) timestamp in
  try_catch
    (await (λ t, live_locations_upsert env t locationUpdate)
           (UpsertLiveLocation locationUpdate))
    (λ error, console "error" "Failed to broadcast location:").

(** *** [updateTripStatus(tripId, status, eta?, distance?, duration?)] *)
Definition updateTripStatus (tripId : string) (status : Status)
    (eta : option JsDate) (distance duration : option R) : M bool :=
  try_catch
    (let* eta_iso := evaluate (optional_toISOString eta) in
     let* updated_at := now in
     let fields := mkTripUpdate status eta_iso distance duration updated_at in
     let* error := await (λ t, trips_update env t tripId fields)
                         (UpdateTrip tripId fields) in
     match error with
     | Some e => throw e
     | None => ret true
     end)
    (λ error, do console "error" "Failed to update trip status:" then
              ret false).

(** *** [twilioService] *)

Record TwilioConfig := mkTwilioConfig {
  accountSid : string; authToken : string; phoneNumber : string
}.

Definition getTwilioConfig : option TwilioConfig :=
  let accountSid := or_string (process_env env "REACT_APP_TWILIO_ACCOUNT_SID") "" in
  let authToken := or_string (process_env env "REACT_APP_TWILIO_AUTH_TOKEN") "" in
  let phoneNumber := or_string (process_env env "REACT_APP_TWILIO_PHONE_NUMBER") "" in
  if decide (accountSid = "" ∨ authToken = "") then None
  else Some (mkTwilioConfig accountSid authToken phoneNumber).

(** The body of [sendSMS(to, message)]. *)
Definition sendSMS_body (to message : string) : M SmsResult :=
  let config := getTwilioConfig in
  if is_null config || negb (twilio_enabled env) then
    do console "log" ("[Mock SMS] To: " +:+ to +:+ ", Message: " +:+ message) then
    let* stamp := now in
    ret (mkSmsResult true (Some ("SM_mock_" +:+ pretty stamp)) None)
  else
    try_catch
      (let* response :=
         await (λ t, fetch env t "/api/twilio/send-sms" (SmsBody to message))
               (Fetch "/api/twilio/send-sms" (SmsBody to message)) in
       if negb (ok response) then
         let* error := settle (json response) in
         ret (mkSmsResult false None
                (Some (or_string (j_message error) "Failed to send SMS")))
       else
         let* data := settle (json response) in
         ret (mkSmsResult true (j_messageSid data) None))
      (λ error, do console "error" "SMS send failed:" then
                ret (mkSmsResult false None (Some error))).

(** [sendSMS(to, message)], with its return recorded. *)
Definition sendSMS (to message : string) : M SmsResult :=
  let* result := sendSMS_body to message in
  do emit (SendSMS to message result) then
  ret result.

(** Return value of [sendEmergencySMS]. *)
Record SmsCounts := mkSmsCounts { sent : nat; failed : nat }.

(** The text built at the top of [sendEmergencySMS]. *)
Definition emergencyMessage (location : LatLng) (tripId userName : string)
    : string :=
  let locationUrl :=
    "https://www.google.com/maps?q=" +:+ numberToString env (lat location)
    +:+ "," +:+ numberToString env (lng location) in
  "🚨 EMERGENCY ALERT from " +:+ userName +:+ nl +:+ nl
  +:+ "Trip ID: " +:+ String.substring 0 8 tripId +:+ nl
  +:+ "Location: " +:+ locationUrl +:+ nl +:+ nl
  +:+ "Please check on them immediately or contact emergency services.".

(** The [for (const contact of emergencyContacts)] loop, with the two
    counters it updates. *)
Fixpoint sendToContacts (contacts : list Contact) (message : string)
    (sent failed : nat) : M SmsCounts :=
  match contacts with
  | [] => ret (mkSmsCounts sent failed)
  | contact :: contacts =>
      let* result := sendSMS (phone contact) message in
      if success result then sendToContacts contacts message (S sent) failed
      else sendToContacts contacts message sent (S failed)
  end.

(** [sendEmergencySMS(emergencyContacts, location, tripId, userName)]. *)
Definition sendEmergencySMS (emergencyContacts : list Contact)
    (location : LatLng) (tripId userName : string) : M SmsCounts :=
  let message := emergencyMessage location tripId userName in
  sendToContacts emergencyContacts message 0 0.

(** *** The emergency dispatcher *)

(** The [for (const participantId of participants)] loop. *)
Fixpoint pushToParticipants (participants : list string)
    (payload : PushPayload) : M unit :=
  match participants with
  | [] => ret ()
  | participantId :: participants =>
      do await (λ t, sendPushNotification env t participantId payload)
               (SendPushNotification participantId payload) then
      pushToParticipants participants payload
  end.

(** [notifyEmergencyContacts(tripId, userId, location)]. *)
Definition notifyEmergencyContacts (tripId userId : string)
    (location : LatLng) : M unit :=
  try_catch
    (let* profile := await (λ t, profiles_select env t userId)
                           (SelectProfile userId) in
     match profile with
     | None => console "error" "User profile not found"
     | Some profile =>
         do await (λ t, dynamic_import env t "./twilioService")
                  (Import "./twilioService") then
         do await (λ t, dynamic_import env t "./integrations")
                  (Import "./integrations") then
         let emergencyContacts := default [] (emergency_contacts profile) in
         do (if decide (0 < length emergencyContacts) then
               do sendEmergencySMS emergencyContacts location tripId
                    (or_string (full_name profile) "User") then
               ret ()
             else ret ()) then
         let* trip := await (λ t, trips_select env t tripId)
                            (SelectTrip tripId) in
         do (match trip with
             | Some trip =>
                 let participants :=
                   omap truthy
                     (driver_id trip :: default [] (bookings trip)) in
                 pushToParticipants participants
                   (mkPushPayload " Emergency Alert"
                      ("Emergency SOS activated for trip "
                       +:+ String.substring 0 8 tripId)
                      "emergency" tripId location)
             | None => ret ()
             end) then
         do try_catch
              (let* timestamp := now in
               let body := EmergencyBody tripId userId location timestamp in
               do await (λ t, fetch env t "/api/emergency/notify" body)
                        (Fetch "/api/emergency/notify" body) then
               ret ())
              (λ error,
                 console "error" "Failed to notify emergency services:") then
         console "log" "Emergency notifications sent:"
     end)
    (λ error, console "error" "Failed to notify emergency contacts:").

(** [sendEmergencySOS(tripId, location, reason?)]. *)
Definition sendEmergencySOS (tripId : string) (location : LatLng)
    (reason : option string) : M bool :=
  try_catch
    (let* user := await (auth_getUser env) GetUser in
     match user with
     | None => throw "User not authenticated"
     | Some user_id =>
         let* created_at := now in
         let row := mkAlertRow tripId user_id location reason "active"
                      created_at in
         let* error := await (λ t, emergency_alerts_insert env t row)
                             (InsertEmergencyAlert row) in
         match error with
         | Some e => throw e
         | None =>
             do notifyEmergencyContacts tripId user_id location then
             ret true
         end
     end)
    (λ error, do console "error" "Failed to send SOS:" then ret false).

End WithEnv.

(** A computation only appends events that satisfy [P] to the trace; it
    does so and does not raise. *)
Definition emitting {A} (P : Event → Prop) (m : M A) : Prop :=
  ∀ t, ∃ new, (m t).2 = t ++ new ∧ Forall P new.
Definition returning {A} (P : Event → Prop) (m : M A) : Prop :=
  ∀ t, ∃ a new, m t = (Returns a, t ++ new) ∧ Forall P new.

(** *** Reading a trace *)

(** Calls of a notification collaborator: an SMS send, a push send, or a
    request to the backend. *)
Definition is_notification (e : Event) : bool :=
  match e with
  | SendSMS _ _ _ | SendPushNotification _ _ _ | Fetch _ _ _ => true
  | _ => false
  end.

(** The SMS sends of a trace, oldest first. *)
Definition sms_of (e : Event) : option (string * string * SmsResult) :=
  match e with
  | SendSMS to message r => Some (to, message, r)
  | _ => None
  end.
Definition smsSends (t : list Event) : list (string * string * SmsResult) :=
  omap sms_of t.

(** Successful and failed SMS sends recorded in a trace. *)
Definition succeeded (t : list Event) : nat :=
  length (filter (λ x, success x.2 = true) (smsSends t)).
Definition unsuccessful (t : list Event) : nat :=
  length (filter (λ x, success x.2 = false) (smsSends t)).

(** The status a trace leaves in the store for a trip: that of the last
    update the store accepted. *)
Definition written_status (tripId : string) (e : Event) : option Status :=
  match e with
  | UpdateTrip id fields (Returns None) =>
      if decide (id = tripId) then Some (tu_status fields) else None
  | _ => None
  end.
Definition storedStatus (tripId : string) (t : list Event) : option Status :=
  last (omap (written_status tripId) t).

(** The identity of the caller was resolved; an alert was written. *)
Definition identityResolved (t : list Event) : Prop :=
  ∃ user_id, GetUser (Returns (Some user_id)) ∈ t.
Definition alertWritten (t : list Event) : Prop :=
  ∃ row, InsertEmergencyAlert row (Returns None) ∈ t.

(** *** Sample environments *)

Definition contactsOfDana : list Contact :=
  [mkContact "Amal" "+971500000001"; mkContact "Badr" "+971500000002";
   mkContact "Chen" "+971500000003"].

(** A signed-in user with three emergency contacts; Twilio is configured,
    the SMS backend refuses the second contact's number, and the
    emergency-services endpoint is down. *)
Definition demoEnv : Env :=
  {| numberToString := λ _, "0";
     process_env := λ key,
       if decide (key = "REACT_APP_TWILIO_PHONE_NUMBER") then None
       else Some "secret";
     twilio_enabled := true;
     clock := λ t, Z.of_nat (length t);
     auth_getUser := λ _, Returns (Some "user-1");
     live_locations_upsert := λ _ _, Returns ();
     trips_update := λ _ _ _, Returns None;
     emergency_alerts_insert := λ _ _, Returns None;
     profiles_select := λ _ _,
       Returns (Some (mkProfile (Some "Dana") (Some contactsOfDana)));
     trips_select := λ _ _,
       Returns (Some (mkTripParticipants (Some "driver-1")
                        (Some [Some "rider-1"; None])));
     dynamic_import := λ _ _, Returns ();
     fetch := λ _ _ body,
       match body with
       | SmsBody to _ =>
           if decide (to = "+971500000002") then
             Returns (mkResponse false (Returns (mkJson None None)))
           else Returns (mkResponse true (Returns (mkJson None (Some "SM1"))))
       | EmergencyBody _ _ _ _ => Throws "Failed to fetch"
       end;
     sendPushNotification := λ _ _ _, Returns () |}.

(** The same with nobody signed in, and with a store that refuses the
    alert. *)
Definition signedOut (env : Env) : Env :=
  mkEnv (numberToString env) (process_env env) (twilio_enabled env)
        (clock env) (λ _, Returns None) (live_locations_upsert env)
        (trips_update env) (emergency_alerts_insert env)
        (profiles_select env) (trips_select env) (dynamic_import env)
        (fetch env) (sendPushNotification env).
Definition refusingAlerts (env : Env) : Env :=
  mkEnv (numberToString env) (process_env env) (twilio_enabled env)
        (clock env) (auth_getUser env) (live_locations_upsert env)
        (trips_update env) (λ _ _, Returns (Some "permission denied"))
        (profiles_select env) (trips_select env) (dynamic_import env)
        (fetch env) (sendPushNotification env).

End Dispatch.


(** ** Further definitions: bookkeeping of the registry, registry keys *)

Module TrackingMore.
Import GeoMath Js Tracking.

(** Bookkeeping of channels and watches: the registry and the realtime
    client hold equally many channels, every channel ever opened is either
    still joined or was removed once, and the position source hands out
    fresh watch ids. *)
Record Accounting (w : World) : Prop := {
  acc_size : size (channels (service w)) = size (joined (supabase w));
  acc_opened :
    opened (supabase w) = size (joined (supabase w)) + removeCalls (supabase w);
  acc_watch_fresh :
    ∀ id, id ∈ watches (navigator w) → id < nextWatch (navigator w)
}.

(** The trip a subscribe call is about. *)
Definition tripIdOf (s : Subscription) : string :=
  match s with
  | DriverLocation tripId _ | TripStatus tripId | Passengers tripId => tripId
  end.

(** The character [:] (code 58), and strings without it, as every UUID
    is. *)
Definition colon : Ascii.ascii :=
  Ascii.Ascii false true false true true true false false.

Fixpoint colon_free (s : string) : Prop :=
  match s with
  | EmptyString => True
  | String c s => c ≠ colon ∧ colon_free s
  end.

End TrackingMore.


(** ** Further definitions: verification codes, the shape of the fan-out *)

Module DispatchMore.
Import GeoMath Js Dispatch.

(** Return value of [sendVerificationCode]. *)
Record VerificationResult := mkVerificationResult {
  v_success : bool;
  v_error : option string
}.

Section WithEnv.
Context (env : Env).

(** The text built at the top of [sendVerificationCode]. *)
Definition verificationMessage (code : string) : string :=
  "Your Wassel verification code is: " +:+ code +:+ nl +:+ nl
  +:+ "This code will expire in 10 minutes.".

(** [sendVerificationCode(phoneNumber, code)]. *)
Definition sendVerificationCode (phoneNumber code : string)
    : M VerificationResult :=
  let message := verificationMessage code in
  let* result := sendSMS env phoneNumber message in
  ret (mkVerificationResult (success result) (sms_error result)).

End WithEnv.

(** Twilio is in mock mode: a credential is missing or empty, or the
    integration is switched off. *)
Definition mockMode (env : Env) : Prop :=
  or_string (process_env env "REACT_APP_TWILIO_ACCOUNT_SID") "" = ""
  ∨ or_string (process_env env "REACT_APP_TWILIO_AUTH_TOKEN") "" = ""
  ∨ twilio_enabled env = false.

(** Requests to the backend in a trace. *)
Definition is_fetch (e : Event) : bool :=
  match e with Fetch _ _ _ => true | _ => false end.

(** Writes to a trip or to its live location, and the alerts written. *)
Definition touches_trip (e : Event) : bool :=
  match e with
  | UpdateTrip _ _ _ | UpsertLiveLocation _ _ => true
  | _ => false
  end.
Definition alert_of (e : Event) : option (AlertRow * Outcome (option string)) :=
  match e with InsertEmergencyAlert row r => Some (row, r) | _ => None end.

(** What happens inside [sendEmergencySMS]: requests to the SMS endpoint,
    returns of [sendSMS], console lines. *)
Definition sms_phase (e : Event) : bool :=
  match e with
  | Fetch url (SmsBody _ _) _ => bool_decide (url = "/api/twilio/send-sms")
  | SendSMS _ _ _ | Console _ _ => true
  | _ => false
  end.

(** What the fan-out of [notifyEmergencyContacts] can record: no identity
    lookup and no write to the store. *)
Definition fanout_event (e : Event) : bool :=
  match e with
  | GetUser _ | UpsertLiveLocation _ _ | UpdateTrip _ _ _
  | InsertEmergencyAlert _ _ => false
  | _ => true
  end.

(** The push sends of a trace and the requests to the emergency-services
    endpoint, oldest first. *)
Definition push_of (e : Event) : option (string * PushPayload * Outcome unit) :=
  match e with
  | SendPushNotification p payload r => Some (p, payload, r)
  | _ => None
  end.
Definition pushSends (t : list Event) : list (string * PushPayload * Outcome unit) :=
  omap push_of t.
Definition emergency_of (e : Event) : option (FetchBody * Outcome Response) :=
  match e with
  | Fetch url (EmergencyBody a b c d) r =>
      if decide (url = "/api/emergency/notify")
      then Some (EmergencyBody a b c d, r) else None
  | _ => None
  end.
Definition emergencyRequests (t : list Event) : list (FetchBody * Outcome Response) :=
  omap emergency_of t.

(** The participants of a trip as [notifyEmergencyContacts] lists them: the
    driver, then the passenger of each booking, null and empty ids left
    out. *)
Definition participantsOf (trip : option TripParticipants) : list string :=
  match trip with
  | Some trip => omap truthy (driver_id trip :: default [] (bookings trip))
  | None => []
  end.

(** The notification pushed to each participant. *)
Definition sosPayload (tripId : string) (location : LatLng) : PushPayload :=
  mkPushPayload " Emergency Alert"
    ("Emergency SOS activated for trip " +:+ String.substring 0 8 tripId)
    "emergency" tripId location.

(** Accepted pushes to a list of participants. *)
Definition pushesTo (payload : PushPayload) (ps : list string) : list Event :=
  (λ p, SendPushNotification p payload (Returns ())) <$> ps.

(** The traces a call of [notifyEmergencyContacts] started after [t] can
    leave, phase by phase, each with the answers that lead to it. *)
Section Shape.
Context (env : Env) (tripId userId : string) (location : LatLng).
Context (t : list Event).

Definition profileFound (profile : Profile) : list Event :=
  [SelectProfile userId (Returns (Some profile));
   Import "./twilioService" (Returns ());
   Import "./integrations" (Returns ())].

Definition smsPhase (profile : Profile) (sms : list Event) : Prop :=
  (smsSends sms).*1
  = (λ c, (phone c,
           emergencyMessage env location tripId
             (or_string (full_name profile) "User")))
    <$> default [] (emergency_contacts profile)
  ∧ Forall (λ e, sms_phase e = true) sms.

Definition servicesPhase (tail : list Event) : Prop :=
  ∃ timestamp r,
    tail = Fetch "/api/emergency/notify"
             (EmergencyBody tripId userId location timestamp) r
           :: match r with
              | Returns _ => []
              | Throws _ =>
                  [Console "error" "Failed to notify emergency services:"]
              end
           ++ [Console "log" "Emergency notifications sent:"].

Inductive NotifyTrace : list Event → Prop :=
| NT_no_profile line :
    (∀ profile, profiles_select env t userId ≠ Returns (Some profile)) →
    NotifyTrace [SelectProfile userId (profiles_select env t userId);
                 Console "error" line]
| NT_no_twilio profile e :
    profiles_select env t userId = Returns (Some profile) →
    dynamic_import env (t ++ [SelectProfile userId (Returns (Some profile))])
      "./twilioService" = Throws e →
    NotifyTrace
      [SelectProfile userId (Returns (Some profile));
       Import "./twilioService" (Throws e);
       Console "error" "Failed to notify emergency contacts:"]
| NT_no_integrations profile e :
    profiles_select env t userId = Returns (Some profile) →
    dynamic_import env
      (t ++ [SelectProfile userId (Returns (Some profile));
             Import "./twilioService" (Returns ())])
      "./integrations" = Throws e →
    NotifyTrace
      [SelectProfile userId (Returns (Some profile));
       Import "./twilioService" (Returns ());
       Import "./integrations" (Throws e);
       Console "error" "Failed to notify emergency contacts:"]
| NT_trip_rejected profile sms e :
    profiles_select env t userId = Returns (Some profile) →
    smsPhase profile sms →
    trips_select env (t ++ profileFound profile ++ sms) tripId = Throws e →
    NotifyTrace
      (profileFound profile ++ sms
       ++ [SelectTrip tripId (Throws e);
           Console "error" "Failed to notify emergency contacts:"])
| NT_push_rejected profile sms trip ok p rest e :
    profiles_select env t userId = Returns (Some profile) →
    smsPhase profile sms →
    trips_select env (t ++ profileFound profile ++ sms) tripId = Returns trip →
    participantsOf trip = ok ++ p :: rest →
    sendPushNotification env
      (t ++ profileFound profile ++ sms
       ++ SelectTrip tripId (Returns trip)
       :: pushesTo (sosPayload tripId location) ok)
      p (sosPayload tripId location) = Throws e →
    NotifyTrace
      (profileFound profile ++ sms
       ++ SelectTrip tripId (Returns trip)
       :: pushesTo (sosPayload tripId location) ok
       ++ [SendPushNotification p (sosPayload tripId location) (Throws e);
           Console "error" "Failed to notify emergency contacts:"])
| NT_done profile sms trip tail :
    profiles_select env t userId = Returns (Some profile) →
    smsPhase profile sms →
    trips_select env (t ++ profileFound profile ++ sms) tripId = Returns trip →
    servicesPhase tail →
    NotifyTrace
      (profileFound profile ++ sms
       ++ SelectTrip tripId (Returns trip)
       :: pushesTo (sosPayload tripId location) (participantsOf trip)
       ++ tail).

End Shape.

(** Nothing is configured and nothing is switched on. *)
Definition unconfigured (env : Env) : Env :=
  mkEnv (numberToString env) (λ _, None) false
        (clock env) (auth_getUser env) (live_locations_upsert env)
        (trips_update env) (emergency_alerts_insert env)
        (profiles_select env) (trips_select env) (dynamic_import env)
        (fetch env) (sendPushNotification env).

(** The profile cannot be read; the second push is rejected. *)
Definition withoutProfile (env : Env) : Env :=
  mkEnv (numberToString env) (process_env env) (twilio_enabled env)
        (clock env) (auth_getUser env) (live_locations_upsert env)
        (trips_update env) (emergency_alerts_insert env)
        (λ _ _, Returns None) (trips_select env) (dynamic_import env)
        (fetch env) (sendPushNotification env).
Definition rejectingPush (who : string) (env : Env) : Env :=
  mkEnv (numberToString env) (process_env env) (twilio_enabled env)
        (clock env) (auth_getUser env) (live_locations_upsert env)
        (trips_update env) (emergency_alerts_insert env)
        (profiles_select env) (trips_select env) (dynamic_import env)
        (fetch env)
        (λ _ p _, if decide (p = who) then Throws "push failed" else Returns ()).


(** The identity service is down; the store refuses trip updates. *)
Definition identityDown (env : Env) : Env :=
  mkEnv (numberToString env) (process_env env) (twilio_enabled env)
        (clock env) (λ _, Throws "network error") (live_locations_upsert env)
        (trips_update env) (emergency_alerts_insert env)
        (profiles_select env) (trips_select env) (dynamic_import env)
        (fetch env) (sendPushNotification env).

End DispatchMore.

(** * Properties *)

(** ** GeoMath *)

Section GeoMathFacts.
Import GeoMath.
Local Open Scope R_scope.


(** The two-argument arctangent of the source is the arcsine of the
    textbook formula. *)
Lemma atan2_sqrt_asin (a : R) :
  a <= 1 -> Math_atan2 (sqrt a) (sqrt (1 - a)) = asin (sqrt a).
Proof.
  intros Ha. unfold Math_atan2.
  destruct (Rlt_dec 0 (sqrt (1 - a))) as [Hpos | Hnpos].
  - destruct (Rle_dec a 0) as [Hneg | Hnn].
    + rewrite (sqrt_neg_0 a Hneg). unfold Rdiv. rewrite Rmult_0_l.
      now rewrite atan_0, asin_0.
    + assert (Hlt : a < 1).
      { destruct (Req_dec a 1) as [-> | Hne]; [| lra].
        replace (1 - 1) with 0 in Hpos by lra. rewrite sqrt_0 in Hpos. lra. }
      assert (Hs : sqrt a < 1).
      { rewrite <- sqrt_1. apply sqrt_lt_1; lra. }
      pose proof (sqrt_pos a) as Hs0.
      rewrite asin_atan by lra.
      rewrite Rsqr_sqrt by lra. reflexivity.
  - assert (Ha1 : a = 1).
    { destruct (Req_dec a 1) as [-> | Hne]; [reflexivity |].
      exfalso. apply Hnpos. apply sqrt_lt_R0. lra. }
    subst a. replace (1 - 1) with 0 by lra. rewrite sqrt_0, sqrt_1.
    destruct (Rlt_dec 0 0) as [H0 | _]; [lra |].
    destruct (Rlt_dec 0 1) as [_ | H1]; [| lra].
    now rewrite asin_1.
Qed.

(** The haversine of a central angle never exceeds 1. *)
Lemma haversine_le_1 (p1 p2 dl : R) :
  sin ((p2 - p1) / 2) * sin ((p2 - p1) / 2)
  + cos p1 * cos p2 * sin (dl / 2) * sin (dl / 2) <= 1.
Proof.
  pose proof (cos_2a_sin ((p2 - p1) / 2)) as Hd.
  replace (2 * ((p2 - p1) / 2)) with (p2 - p1) in Hd by lra.
  rewrite cos_minus in Hd.
  pose proof (cos_plus p2 p1) as Hp.
  pose proof (COS_bound (p2 + p1)) as [_ Hb].
  pose proof (SIN_bound (dl / 2)) as [Hl Hu].
  pose proof (SIN_bound ((p2 - p1) / 2)) as [Hl' Hu'].
  set (s := sin ((p2 - p1) / 2)) in *.
  set (t := sin (dl / 2)) in *.
  set (c1 := cos p1) in *. set (c2 := cos p2) in *.
  assert (Ht : 0 <= t * t <= 1) by nra.
  destruct (Rle_dec (c1 * c2) 0) as [Hn | Hn].
  - assert (c1 * c2 * t * t <= 0) by nra. nra.
  - assert (c1 * c2 * t * t <= c1 * c2) by nra. nra.
Qed.

(** For latitudes within [-90, 90] degrees it is not negative either, so
    that [sqrt] is the real square root on both of its uses. *)
Lemma haversine_ge_0 (p1 p2 dl : R) :
  - (PI / 2) <= p1 <= PI / 2 -> - (PI / 2) <= p2 <= PI / 2 ->
  0 <= sin ((p2 - p1) / 2) * sin ((p2 - p1) / 2)
       + cos p1 * cos p2 * sin (dl / 2) * sin (dl / 2).
Proof.
  intros [Hl1 Hu1] [Hl2 Hu2].
  pose proof (cos_ge_0 p1 Hl1 Hu1) as Hc1.
  pose proof (cos_ge_0 p2 Hl2 Hu2) as Hc2.
  assert (0 <= cos p1 * cos p2) by nra.
  assert (0 <= sin (dl / 2) * sin (dl / 2)) by nra.
  assert (0 <= sin ((p2 - p1) / 2) * sin ((p2 - p1) / 2)) by nra.
  nra.
Qed.

(** What [calculateETA] and [isWithinGeofence] compute inline is the
    great-circle distance of the specification. *)
Lemma inline_distance (a b : LatLng) :
  let phi1 := (lat a * PI) / 180 in
  let phi2 := (lat b * PI) / 180 in
  let dphi := ((lat b - lat a) * PI) / 180 in
  let dlam := ((lng b - lng a) * PI) / 180 in
  let h := sin (dphi / 2) * sin (dphi / 2) +
           cos phi1 * cos phi2 * sin (dlam / 2) * sin (dlam / 2) in
  6371000 * (2 * Math_atan2 (sqrt h) (sqrt (1 - h))) = distanceMeters a b.
Proof.
  intros phi1 phi2 dphi dlam h.
  assert (Hh : h <= 1).
  { subst h dphi. replace ((lat b - lat a) * PI / 180) with (phi2 - phi1)
      by (subst phi1 phi2; lra).
    apply haversine_le_1. }
  rewrite (atan2_sqrt_asin h Hh).
  unfold distanceMeters, hav, radians, Rsqr.
  replace (lat b * PI / 180 - lat a * PI / 180) with dphi by (subst dphi; lra).
  replace (lng b * PI / 180 - lng a * PI / 180) with dlam by (subst dlam; lra).
  fold phi1 phi2.
  replace (sin (dphi / 2) * sin (dphi / 2) +
           cos phi1 * cos phi2 * (sin (dlam / 2) * sin (dlam / 2))) with h
    by (subst h; ring).
  ring.
Qed.

(** [calculateETA] in terms of the great-circle distance. *)
Lemma calculateETA_unfold (now : Z) (cur dest : LatLng) (v : R) :
  calculateETA now cur dest v =
  let d := distanceMeters cur dest in
  let speed := if Rlt_dec 0 v then v / (36 / 10) else 1389 / 100 in
  {| eta := Date_of_ms (IZR now + d / speed * 1000);
     distance := Math_round d;
     duration := Math_round (d / speed) |}.
Proof.
  unfold calculateETA. cbv zeta. rewrite (inline_distance cur dest). reflexivity.
Qed.

(** Along the equator the distance is the arc of the longitude difference. *)
Lemma distanceMeters_equator (d : R) :
  0 <= d <= 180 ->
  distanceMeters (mkLatLng 0 0) (mkLatLng 0 d) = 6371000 * (d * PI / 180).
Proof.
  intros Hd. unfold distanceMeters, hav, radians. cbn [lat lng].
  replace (0 * PI / 180 - 0 * PI / 180) with 0 by lra.
  replace (0 * PI / 180) with 0 by lra.
  replace (0 / 2) with 0 by lra.
  rewrite sin_0, cos_0, Rsqr_0.
  replace (0 + 1 * 1 * (sin ((d * PI / 180 - 0) / 2))²)
    with ((sin (d * PI / 360))²)
    by (replace ((d * PI / 180 - 0) / 2) with (d * PI / 360) by lra; lra).
  pose proof PI_RGT_0 as Hpi.
  assert (Hx : 0 <= d * PI / 360 <= PI / 2) by nra.
  rewrite sqrt_Rsqr by (apply sin_ge_0; lra).
  rewrite asin_sin by lra. lra.
Qed.

Lemma distanceMeters_east : distanceMeters origin east_13890m = 13890.
Proof.
  unfold origin, east_13890m.
  pose proof PI_RGT_0 as Hpi. pose proof PI2_1 as Hpi2.
  assert (Hq : 0 < / PI < 1).
  { split; [apply Rinv_0_lt_compat; lra |].
    rewrite <- Rinv_1. apply Rinv_lt_contravar; lra. }
  rewrite distanceMeters_equator.
  - field. lra.
  - unfold Rdiv. nra.
Qed.




Lemma isWithinGeofence_distance (p c : LatLng) (r : R) :
  isWithinGeofence p c r = true <-> distanceMeters p c <= r.
Proof.
  unfold isWithinGeofence. cbv zeta. rewrite (inline_distance p c).
  destruct (Rle_dec (distanceMeters p c) r); split; intros; auto; discriminate.
Qed.

Lemma distanceMeters_self (c : LatLng) : distanceMeters c c = 0.
Proof.
  unfold distanceMeters, hav, radians.
  replace (lat c * PI / 180 - lat c * PI / 180) with 0 by lra.
  replace (lng c * PI / 180 - lng c * PI / 180) with 0 by lra.
  replace (0 / 2) with 0 by lra. rewrite sin_0, Rsqr_0.
  rewrite Rmult_0_r, Rplus_0_r, sqrt_0, asin_0. lra.
Qed.

Lemma isWithinGeofence_self (c : LatLng) (r : R) :
  0 <= r -> isWithinGeofence c c r = true.
Proof.
  intros Hr. apply isWithinGeofence_distance. rewrite distanceMeters_self. exact Hr.
Qed.

(** In exact arithmetic [isWithinGeofence] answers true exactly when the
    haversine distance from the point to the centre is at most the radius,
    the boundary included; and a centre is inside its own geofence for
    every radius that is not negative. *)
Theorem isWithinGeofence_inclusive (point center : LatLng) (radiusMeters : R) :
  (isWithinGeofence point center radiusMeters = true
   <-> distanceMeters point center <= radiusMeters)
  /\ (0 <= radiusMeters -> isWithinGeofence center center radiusMeters = true).
Proof.
  split; [apply isWithinGeofence_distance | apply isWithinGeofence_self].
Qed.

(** A point is inside the geofence of radius 0 around itself. *)
Lemma isWithinGeofence_inclusive_witness :
  isWithinGeofence origin origin 0 = true.
Proof.
  apply (isWithinGeofence_inclusive origin origin 0). lra.
Defined.

End GeoMathFacts.

(** ** The channel registry and the cancel handles *)

Section TrackingInvariant.
Import GeoMath Js Tracking.

Lemma Inv_init hasGeolocation : Inv (init hasGeolocation).
Proof.
  split; cbn; intros.
  - by rewrite lookup_empty in H.
  - by rewrite lookup_empty in H.
  - rewrite lookup_empty in H. by destruct H.
  - by destruct H.
Qed.

(** Only the registry and the realtime client matter to [Inv]. *)
Lemma Inv_same w w' :
  channels (service w') = channels (service w) →
  supabase w' = supabase w →
  (is_Some (locationWatchId (service w')) → geolocation (navigator w') = true) →
  Inv w → Inv w'.
Proof.
  intros Hc Hs Hw [H1 H2 H3 H4]. split; rewrite ?Hc, ?Hs; auto.
Qed.

Lemma Inv_open name ch w :
  ch_topic ch = name → channels (service w) !! name = None → Inv w →
  Inv (channels_set name (openChannel ch w).2 (openChannel ch w).1).
Proof.
  intros Ht Hnone [H1 H2 H3 H4]. split; cbn.
  - intros k c. destruct (decide (name = k)) as [<- | Hne].
    + rewrite lookup_insert_eq. intros [= <-]. exists ch.
      by rewrite lookup_insert_eq.
    + rewrite lookup_insert_ne by done. intros Hk.
      destruct (H1 _ _ Hk) as (ch' & Hj & Ht').
      exists ch'. split; [| done]. rewrite lookup_insert_ne; [done |].
      intros <-. assert (opened (supabase w) < opened (supabase w)); [| lia].
      apply H3. by rewrite Hj.
  - intros c ch'. destruct (decide (opened (supabase w) = c)) as [<- | Hne].
    + rewrite lookup_insert_eq. intros [= <-]. rewrite Ht.
      by rewrite lookup_insert_eq.
    + rewrite lookup_insert_ne by done. intros Hj.
      pose proof (H2 _ _ Hj) as Hk.
      rewrite lookup_insert_ne; [done |]. intros Heq. congruence.
  - intros c. destruct (decide (opened (supabase w) = c)) as [<- | Hne].
    + lia.
    + rewrite lookup_insert_ne by done. intros Hj. specialize (H3 _ Hj). lia.
  - done.
Qed.

Lemma Inv_unsubscribe name w : Inv w → Inv (unsubscribe name w).
Proof.
  intros HI. unfold unsubscribe.
  destruct (channels (service w) !! name) as [c |] eqn:Hname; [| done].
  destruct HI as [H1 H2 H3 H4]. split; cbn.
  - intros k c'. destruct (decide (name = k)) as [<- | Hne].
    + by rewrite lookup_delete_eq.
    + rewrite lookup_delete_ne by done. intros Hk.
      destruct (H1 _ _ Hk) as (ch' & Hj & Ht').
      exists ch'. split; [| done]. rewrite lookup_delete_ne; [done |].
      intros <-. destruct (H1 _ _ Hname) as (ch & Hj' & Ht). congruence.
  - intros c' ch'. destruct (decide (c = c')) as [<- | Hne].
    + by rewrite lookup_delete_eq.
    + rewrite lookup_delete_ne by done. intros Hj.
      pose proof (H2 _ _ Hj) as Hk.
      rewrite lookup_delete_ne; [done |]. intros Heq. congruence.
  - intros c'. destruct (decide (c = c')) as [<- | Hne].
    + rewrite lookup_delete_eq. by intros [].
    + rewrite lookup_delete_ne by done. apply H3.
  - done.
Qed.

Lemma Inv_stopLocationTracking w w' :
  stopLocationTracking w = Returns w' → Inv w → Inv w'.
Proof.
  unfold stopLocationTracking, clearWatch. intros Hstop HI.
  destruct (locationWatchId (service w)) as [id |].
  - destruct (geolocation (navigator w)); [| done].
    injection Hstop as <-.
    eapply Inv_same; [..| exact HI]; cbn; try done; by intros [].
  - injection Hstop as <-.
    eapply Inv_same; [..| exact HI]; cbn; try done. apply (inv_watch _ HI).
Qed.

Local Ltac subscribe_case :=
  match goal with
  | Hs : is_Some _ |- _ => left; split; [done | eexists; reflexivity]
  | Hn : ¬ is_Some _ |- _ =>
      right; split;
      [by apply eq_None_not_Some | eexists; split; [| reflexivity]; done]
  end.

(** A subscribe call either finds its key registered and only logs, or
    opens one channel under that key and registers it. *)
Lemma subscribeTo_cases s w :
  let name := channelName s in
    (subscribeTo s w).2 = ChannelCancel name ∧
    ((is_Some (channels (service w) !! name) ∧
      ∃ line, (subscribeTo s w).1 = log line w) ∨
     (channels (service w) !! name = None ∧
      ∃ ch, ch_topic ch = name ∧
        (subscribeTo s w).1
        = channels_set name (openChannel ch w).2 (openChannel ch w).1)).
Proof.
  destruct s as [tripId driverId | tripId | tripId]; cbn;
    unfold subscribeToDriverLocation, subscribeToTripStatus,
      subscribeToPassengers; cbv zeta;
    match goal with |- context [decide (is_Some (?m !! ?k))] =>
      destruct (decide (is_Some (m !! k))) as [Hs | Hn]
    end; cbn; (split; [done |]); subscribe_case.
Qed.

Lemma Inv_subscribeTo s w : Inv w → Inv (subscribeTo s w).1.
Proof.
  intros HI.
  destruct (subscribeTo_cases s w) as (_ & [[_ [line ->]] | [Hn (ch & Ht & ->)]]).
  - eapply Inv_same; [..| exact HI]; cbn; try done. apply (inv_watch _ HI).
  - by apply Inv_open.
Qed.

Lemma Inv_foldr_unsubscribe (l : list (string * nat)) w :
  Inv w → Inv (foldr (λ kc w, unsubscribe kc.1 w) w l).
Proof.
  intros HI. induction l as [| kc l IH]; cbn; [done |].
  by apply Inv_unsubscribe.
Qed.

Lemma Inv_call c w w' : call c w = Returns w' → Inv w → Inv w'.
Proof.
  destruct c as [tripId | s | | tripId pickup radius | h | id r]; cbn.
  - intros [= <-] HI. unfold startLocationTracking.
    destruct (geolocation (navigator w)) eqn:Hg; cbn;
      (eapply Inv_same; [..| exact HI]); cbn; try done.
    intros Hw. apply (inv_watch _ HI) in Hw. congruence.
  - intros [= <-]. apply Inv_subscribeTo.
  - unfold unsubscribeAll. intros Hstop HI.
    eapply Inv_stopLocationTracking; [exact Hstop |].
    by apply Inv_foldr_unsubscribe.
  - intros [= <-] HI. unfold monitorPickupZone. cbn.
    eapply Inv_same; [..| exact HI]; cbn; try done. apply (inv_watch _ HI).
  - destruct h as [name | | id]; cbn.
    + intros [= <-]. apply Inv_unsubscribe.
    + apply Inv_stopLocationTracking.
    + intros [= <-] HI. eapply Inv_same; [..| exact HI]; cbn; try done.
      apply (inv_watch _ HI).
  - intros [= <-] HI. unfold tick.
    destruct (intervals (timers w) !! id) as [m |]; [| done].
    unfold pollTick. cbv zeta.
    destruct r as [| | [coords |]];
      try (eapply Inv_same; [..| exact HI]; cbn; try done; apply (inv_watch _ HI)).
    destruct (isWithinGeofence coords (m_pickup m) (m_radius m));
      (eapply Inv_same; [..| exact HI]); cbn; try done;
      apply (inv_watch _ HI).
Qed.

Lemma reachable_Inv w : reachable w → Inv w.
Proof.
  induction 1 as [g | c w w' _ IH Hcall].
  - apply Inv_init.
  - by eapply Inv_call.
Qed.

End TrackingInvariant.

Section TrackingRegistry.
Import GeoMath Js Tracking.

Lemma live_lookup name w c ch :
  live name w !! c = Some ch ↔
  joined (supabase w) !! c = Some ch ∧ ch_topic ch = name.
Proof. unfold live. by rewrite map_lookup_filter_Some. Qed.

Lemma live_unregistered name w :
  Inv w → channels (service w) !! name = None → live name w = ∅.
Proof.
  intros HI Hnone. apply map_empty. intros c.
  destruct (live name w !! c) as [ch |] eqn:Hl; [| done].
  apply live_lookup in Hl as [Hj <-].
  apply (inv_joined _ HI) in Hj. congruence.
Qed.

Lemma live_registered name w c :
  Inv w → channels (service w) !! name = Some c →
  ∃ ch, live name w = {[c := ch]}.
Proof.
  intros HI Hreg. destruct (inv_registered _ HI _ _ Hreg) as (ch & Hj & Ht).
  exists ch. apply map_eq. intros c'.
  destruct (decide (c = c')) as [<- | Hne].
  - rewrite lookup_singleton_eq. by apply live_lookup.
  - rewrite lookup_singleton_ne by done.
    destruct (live name w !! c') as [ch' |] eqn:Hl; [| done].
    apply live_lookup in Hl as [Hj' <-].
    apply (inv_joined _ HI) in Hj'. congruence.
Qed.

Lemma live_at_most_one name w : Inv w → size (live name w) ≤ 1.
Proof.
  intros HI. destruct (channels (service w) !! name) as [c |] eqn:Hreg.
  - destruct (live_registered _ _ _ HI Hreg) as [ch ->].
    by rewrite map_size_singleton.
  - rewrite (live_unregistered _ _ HI Hreg), map_size_empty. lia.
Qed.

Lemma unsubscribe_registered name w c :
  channels (service w) !! name = Some c →
  unsubscribe name w = channels_delete name (removeChannel c w).
Proof. unfold unsubscribe. by intros ->. Qed.

Lemma unsubscribe_unregistered name w :
  channels (service w) !! name = None → unsubscribe name w = w.
Proof. unfold unsubscribe. by intros ->. Qed.

Lemma unsubscribe_ended name w :
  channels (service (unsubscribe name w)) !! name = None.
Proof.
  unfold unsubscribe.
  destruct (channels (service w) !! name) as [c |] eqn:Hreg; [| done].
  cbn. apply lookup_delete_eq.
Qed.

Lemma stopLocationTracking_ended w w' :
  stopLocationTracking w = Returns w' →
  locationWatchId (service w') = None ∧ currentTripId (service w') = None.
Proof.
  unfold stopLocationTracking, clearWatch.
  destruct (locationWatchId (service w)) as [id |] eqn:Hid.
  - destruct (geolocation (navigator w)); [| done]. by intros [= <-].
  - intros [= <-]. by cbn.
Qed.

Lemma invoke_ended h w : ended h w → invoke h w = Returns w.
Proof.
  destruct h as [name | | id]; cbn.
  - intros Hnone. by rewrite unsubscribe_unregistered.
  - intros [Hid Htrip]. unfold stopLocationTracking. rewrite Hid.
    destruct w as [[chs lw ct] b n t p a c]. cbn in *. by subst.
  - intros Hnone. unfold clearInterval, set_timers.
    destruct w as [s b n [ivs nx] p a c]. cbn in *.
    by rewrite delete_id.
Qed.

Lemma invoke_returns h w :
  Inv w → ∃ w1, invoke h w = Returns w1 ∧ ended h w1.
Proof.
  intros HI. destruct h as [name | | id]; cbn.
  - eexists. split; [done |]. apply unsubscribe_ended.
  - destruct (stopLocationTracking w) as [w1 | e] eqn:Hstop.
    + exists w1. split; [done |]. by eapply stopLocationTracking_ended.
    + exfalso. unfold stopLocationTracking, clearWatch in Hstop.
      destruct (locationWatchId (service w)) as [wid |] eqn:Hid; [| done].
      rewrite (inv_watch _ HI) in Hstop; [done |]. by rewrite Hid.
  - eexists. split; [done |]. cbn. apply lookup_delete_eq.
Qed.

(** Calls that do not overlap. In every world a service instance can reach
    by calls that each run to completion, at most one channel is joined
    under any key. A subscribe
    call hands out the cancel closure of its key and leaves the key
    registered; where the key is registered already, a subscribe call with
    equal arguments opens nothing (the realtime client is unchanged), and
    invoking the closure it returns removes the one channel joined under
    the key. *)
Theorem one_channel_per_key (w : World) (s : Subscription) :
  reachable w →
  (∀ name, size (live name w) ≤ 1)
  ∧ (subscribeTo s w).2 = ChannelCancel (channelName s)
  ∧ is_Some (channels (service (subscribeTo s w).1) !! channelName s)
  ∧ ∀ c, channels (service w) !! channelName s = Some c →
      let w' := (subscribeTo s w).1 in
      supabase w' = supabase w
      ∧ ∃ ch, live (channelName s) w' = {[c := ch]}
          ∧ ∃ w'', invoke (subscribeTo s w).2 w' = Returns w''
              ∧ joined (supabase w'') = delete c (joined (supabase w))
              ∧ live (channelName s) w'' = ∅.
Proof.
  intros Hreach. pose proof (reachable_Inv _ Hreach) as HI.
  pose proof (Inv_subscribeTo s w HI) as HI'.
  destruct (subscribeTo_cases s w) as (Hh & Hcases).
  split; [intros name; by apply live_at_most_one |].
  split; [done |]. split.
  - destruct Hcases as [[Hs [line ->]] | [_ (ch & _ & ->)]]; cbn; [done |].
    by rewrite lookup_insert_eq.
  - intros c Hc w'. subst w'.
    destruct Hcases as [[_ [line Hw']] | [Hnone _]]; [| congruence].
    rewrite Hh, Hw' in *. split; [done |].
    assert (Hc' : channels (service (log line w)) !! channelName s = Some c)
      by done.
    destruct (live_registered _ _ _ HI' Hc') as [ch Hlive].
    exists ch. split; [done |].
    exists (unsubscribe (channelName s) (log line w)). cbn.
    split; [done |]. split.
    + by rewrite (unsubscribe_registered _ _ _ Hc').
    + apply live_unregistered; [by apply Inv_unsubscribe | apply unsubscribe_ended].
Qed.

(** Subscribing to a trip's status twice: the second call opens nothing,
    and its cancel closure leaves no channel joined. *)
Lemma one_channel_per_key_witness :
  let s := TripStatus "trip-1" in
  let w1 := (subscribeTo s (init true)).1 in
  let w2 := (subscribeTo s w1).1 in
  opened (supabase w1) = 1 ∧ supabase w2 = supabase w1
  ∧ ∃ w3, invoke (subscribeTo s w1).2 w2 = Returns w3
          ∧ joined (supabase w3) = ∅.
Proof.
  intros s w1 w2.
  assert (Hreach : reachable w1).
  { apply (reachable_call (Subscribe s) (init true));
      [apply reachable_init | reflexivity]. }
  destruct (one_channel_per_key w1 s Hreach) as (_ & _ & _ & Hagain).
  destruct (Hagain 0) as (Hsame & ch & _ & w3 & Hcancel & Hjoined & _).
  - reflexivity.
  - split; [reflexivity |]. split; [exact Hsame |].
    exists w3. split; [exact Hcancel |]. rewrite Hjoined. reflexivity.
Defined.

(** Calls that do not overlap. In every world a service instance can
    reach, invoking a cancel handle returns normally; invoking it again
    right after that call has completed, or invoking a handle whose resource has already ended by
    itself, returns normally and changes nothing: no collaborator is
    called and no field of the service changes. *)
Theorem cancel_twice_is_noop (w : World) (h : CancelHandle) :
  reachable w →
  (∃ w1, invoke h w = Returns w1 ∧ invoke h w1 = Returns w1)
  ∧ (ended h w → invoke h w = Returns w).
Proof.
  intros Hreach. pose proof (reachable_Inv _ Hreach) as HI.
  split; [| apply invoke_ended].
  destruct (invoke_returns h w HI) as (w1 & Hfirst & Hend).
  exists w1. split; [done |]. by apply invoke_ended.
Qed.

(** Cancelling a status subscription twice. *)
Lemma cancel_twice_is_noop_witness :
  let w := (subscribeTo (TripStatus "trip-1") (init true)).1 in
  ∃ w1, invoke (ChannelCancel "trip:trip-1:status") w = Returns w1
        ∧ invoke (ChannelCancel "trip:trip-1:status") w1 = Returns w1.
Proof.
  intros w.
  apply (cancel_twice_is_noop w (ChannelCancel "trip:trip-1:status")).
  apply (reachable_call (Subscribe (TripStatus "trip-1")) (init true)).
  - apply reachable_init.
  - reflexivity.
Defined.

End TrackingRegistry.

(** ** The geofence monitor *)

Section GeofenceMonitor.
Import GeoMath Js Tracking.

Lemma polled_0 id w : polled id 0 w = w.
Proof. destruct w. unfold polled. cbn. by rewrite app_nil_r. Qed.

Lemma polled_S id n w : polled id n (polled id 1 w) = polled id (S n) w.
Proof. unfold polled. cbn. by rewrite <- app_assoc. Qed.

Lemma tick_miss id m r w :
  intervals (timers w) !! id = Some m →
  arrived (m_pickup m) (m_radius m) r = false →
  tick id r w = polled id 1 w.
Proof.
  intros Hm Hr. unfold tick, pollTick. rewrite Hm. cbv zeta.
  destruct r as [| | [coords |]]; try done.
  cbn in Hr. by rewrite Hr.
Qed.

Lemma tick_hit id m r w :
  intervals (timers w) !! id = Some m →
  arrived (m_pickup m) (m_radius m) r = true →
  tick id r w =
  clearInterval id
    (mkWorld (service w) (supabase w) (navigator w) (timers w)
             (polls w ++ [id]) (arrivals w ++ [id]) (console w)).
Proof.
  intros Hm Hr. unfold tick, pollTick. rewrite Hm. cbv zeta.
  destruct r as [| | [coords |]]; try done.
  cbn in Hr. by rewrite Hr.
Qed.

Lemma ticks_app id rs1 rs2 w :
  ticks id (rs1 ++ rs2) w = ticks id rs2 (ticks id rs1 w).
Proof. apply foldl_app. Qed.

Lemma ticks_cons id r rs w : ticks id (r :: rs) w = ticks id rs (tick id r w).
Proof. done. Qed.

Lemma ticks_cleared id rs w :
  intervals (timers w) !! id = None → ticks id rs w = w.
Proof.
  intros Hnone. induction rs as [| r rs IH]; [done |].
  unfold ticks in *. cbn. unfold tick at 2. by rewrite Hnone.
Qed.

Lemma ticks_miss id m rs w :
  intervals (timers w) !! id = Some m →
  Forall (λ r, arrived (m_pickup m) (m_radius m) r = false) rs →
  ticks id rs w = polled id (length rs) w.
Proof.
  intros Hm Hrs. revert w Hm.
  induction Hrs as [| r rs Hr _ IH]; intros w Hm.
  - by rewrite polled_0.
  - unfold ticks in *. cbn. rewrite (tick_miss id m r w Hm Hr).
    rewrite IH by done. apply polled_S.
Qed.

Lemma arrival_cases center radius (rs : list PollResult) :
  Forall (λ r, arrived center radius r = false) rs
  ∨ ∃ pre r post, rs = pre ++ r :: post
      ∧ Forall (λ r, arrived center radius r = false) pre
      ∧ arrived center radius r = true.
Proof.
  induction rs as [| r rs IH]; [by left |].
  destruct (arrived center radius r) eqn:Hr.
  - right. exists [], r, rs. by repeat split.
  - destruct IH as [Hall | (pre & r' & post & -> & Hpre & Hr')].
    + left. by constructor.
    + right. exists (r :: pre), r', post. repeat split; [| done]. by constructor.
Qed.

(** Ticks that do not overlap. After [monitorPickupZone], with the timer
    firing once per poll answer, each tick run to completion and an
    [onArrival] that returns: if some answer carries a
    position inside the geofence, then [onArrival] is invoked once, by the
    tick of the first such answer, that tick is the last one to run, and
    the interval is cleared; if no answer does, [onArrival] is not invoked,
    every tick runs and the interval stays registered. Every sequence of
    answers is of one of these two kinds. A rejected query, an answer
    without a row and a row without coordinates all count as "not
    inside". *)
Theorem monitorPickupZone_arrives_once (tripId : string) (center : LatLng)
    (radius : option R) (w : World) (rs : list PollResult) :
  let id := nextInterval (timers w) in
  let m := mkMonitor tripId center (default 100%R radius) in
  let w' := ticks id rs (monitorPickupZone tripId center radius w).1 in
  (monitorPickupZone tripId center radius w).2 = IntervalCancel id
  ∧ (∀ pre r post,
       rs = pre ++ r :: post →
       Forall (λ r, arrived center (m_radius m) r = false) pre →
       arrived center (m_radius m) r = true →
       arrivals w' = arrivals w ++ [id]
       ∧ polls w' = polls w ++ replicate (S (length pre)) id
       ∧ intervals (timers w') !! id = None)
  ∧ (Forall (λ r, arrived center (m_radius m) r = false) rs →
       arrivals w' = arrivals w
       ∧ polls w' = polls w ++ replicate (length rs) id
       ∧ intervals (timers w') !! id = Some m)
  ∧ (Forall (λ r, arrived center (m_radius m) r = false) rs
     ∨ ∃ pre r post, rs = pre ++ r :: post
         ∧ Forall (λ r, arrived center (m_radius m) r = false) pre
         ∧ arrived center (m_radius m) r = true)
  ∧ arrived center (m_radius m) PollRejects = false
  ∧ arrived center (m_radius m) PollNoData = false
  ∧ arrived center (m_radius m) (PollRow None) = false.
Proof.
  intros id m w'. subst w'. unfold monitorPickupZone. cbn [fst snd setInterval].
  fold id. fold m.
  set (w0 := set_timers _ w).
  assert (Hm : intervals (timers w0) !! id = Some m).
  { subst w0. cbn. apply lookup_insert_eq. }
  split; [done |].
  split; [| split; [| split; [apply arrival_cases | done]]].
  - intros pre r post -> Hpre Hr.
    rewrite ticks_app, ticks_cons, (ticks_miss id m pre w0 Hm Hpre).
    rewrite (tick_hit id m r); [| done | done].
    rewrite ticks_cleared; [| apply lookup_delete_eq].
    cbn -[replicate]. split; [done |]. split; [| apply lookup_delete_eq].
    by rewrite replicate_S_end, app_assoc.
  - intros Hall. rewrite (ticks_miss id m rs w0 Hm Hall). by cbn.
Qed.

(** Outside, no sample, inside, inside: one arrival, three ticks. *)
Lemma monitorPickupZone_arrives_once_witness :
  let rs := [PollRow (Some origin); PollNoData;
             PollRow (Some east_13890m); PollRow (Some east_13890m)] in
  let w' := ticks 0 rs (monitorPickupZone "trip-1" east_13890m None
                          (init true)).1 in
  arrivals w' = [0] ∧ polls w' = [0; 0; 0].
Proof.
  intros rs w'.
  assert (Hout : arrived east_13890m 100 (PollRow (Some origin)) = false).
  { cbn. apply not_true_is_false. intros Hin.
    apply isWithinGeofence_distance in Hin.
    rewrite distanceMeters_east in Hin. lra. }
  destruct (monitorPickupZone_arrives_once "trip-1" east_13890m None
              (init true) rs) as (_ & Hfirst & _).
  destruct (Hfirst [PollRow (Some origin); PollNoData]
              (PollRow (Some east_13890m)) [PollRow (Some east_13890m)])
    as (Ha & Hp & _).
  - reflexivity.
  - repeat constructor. exact Hout.
  - cbn. apply isWithinGeofence_self. lra.
  - split; [exact Ha | exact Hp].
Defined.

End GeofenceMonitor.

(** ** Store writes and the emergency dispatcher *)

Import GeoMath Js Tracking Dispatch.

Section DispatchFacts.
Context (env : Env) (P : Event → Prop).

Lemma returning_emitting {A} (m : M A) : returning P m → emitting P m.
Proof. intros H t. destruct (H t) as (a & new & -> & HP). by exists new. Qed.

Lemma emitting_ret {A} (a : A) : emitting P (ret a).
Proof. intros t. exists []. cbn. by rewrite app_nil_r. Qed.

Lemma emitting_throw {A} e : emitting P (@throw A e).
Proof. intros t. exists []. cbn. by rewrite app_nil_r. Qed.

Lemma emitting_now : emitting P (now env).
Proof. intros t. exists []. cbn. by rewrite app_nil_r. Qed.

Lemma emitting_settle {A} (r : Outcome A) : emitting P (settle r).
Proof. intros t. exists []. cbn. by rewrite app_nil_r. Qed.

Lemma emitting_await {A} (answer : list Event → Outcome A) record :
  (∀ r, P (record r)) → emitting P (await answer record).
Proof. intros HP t. eexists. split; [done |]. by repeat constructor. Qed.

Lemma emitting_console level line :
  P (Console level line) → emitting P (console level line).
Proof. intros HP t. eexists. split; [done |]. by repeat constructor. Qed.

Lemma emitting_bind {A B} (m : M A) (k : A → M B) :
  emitting P m → (∀ a, emitting P (k a)) → emitting P (bind m k).
Proof.
  intros Hm Hk t. unfold bind. destruct (Hm t) as (new & Hnew & HP).
  destruct (m t) as [[a | e] t']; cbn in Hnew; subst t'.
  - destruct (Hk a (t ++ new)) as (new' & -> & HP'). exists (new ++ new').
    split; [by rewrite app_assoc | by apply Forall_app].
  - by exists new.
Qed.

Lemma emitting_try_catch {A} (m : M A) (h : string → M A) :
  emitting P m → (∀ e, emitting P (h e)) → emitting P (try_catch m h).
Proof.
  intros Hm Hh t. unfold try_catch. destruct (Hm t) as (new & Hnew & HP).
  destruct (m t) as [[a | e] t']; cbn in Hnew; subst t'.
  - by exists new.
  - destruct (Hh e (t ++ new)) as (new' & -> & HP'). exists (new ++ new').
    split; [by rewrite app_assoc | by apply Forall_app].
Qed.

Lemma returning_ret {A} (a : A) : returning P (ret a).
Proof. intros t. exists a, []. cbn. by rewrite app_nil_r. Qed.

Lemma returning_now : returning P (now env).
Proof. intros t. exists (clock env t), []. cbn. by rewrite app_nil_r. Qed.

Lemma returning_console level line :
  P (Console level line) → returning P (console level line).
Proof. intros HP t. eexists _, _. split; [done |]. by repeat constructor. Qed.

Lemma returning_bind {A B} (m : M A) (k : A → M B) :
  returning P m → (∀ a, returning P (k a)) → returning P (bind m k).
Proof.
  intros Hm Hk t. unfold bind. destruct (Hm t) as (a & new & -> & HP).
  destruct (Hk a (t ++ new)) as (b & new' & -> & HP'). exists b, (new ++ new').
  split; [by rewrite app_assoc | by apply Forall_app].
Qed.

(** A [try] whose handler does not raise does not raise. *)
Lemma returning_try_catch {A} (m : M A) (h : string → M A) :
  emitting P m → (∀ e, returning P (h e)) → returning P (try_catch m h).
Proof.
  intros Hm Hh t. unfold try_catch. destruct (Hm t) as (new & Hnew & HP).
  destruct (m t) as [[a | e] t']; cbn in Hnew; subst t'.
  - by exists a, new.
  - destruct (Hh e (t ++ new)) as (a & new' & -> & HP'). exists a, (new ++ new').
    split; [by rewrite app_assoc | by apply Forall_app].
Qed.

End DispatchFacts.

Create HintDb trace.
#[local] Hint Resolve emitting_ret emitting_throw emitting_now
  emitting_settle returning_ret returning_now : trace.
#[local] Hint Extern 1 (emitting _ (await _ _)) =>
  apply emitting_await; intros ?; done : trace.
#[local] Hint Extern 1 (emitting _ (console _ _)) =>
  apply emitting_console; done : trace.
#[local] Hint Extern 1 (returning _ (console _ _)) =>
  apply returning_console; done : trace.
#[local] Hint Extern 2 (emitting _ (bind _ _)) =>
  apply emitting_bind; [| intros ?; cbn beta] : trace.
#[local] Hint Extern 2 (emitting _ (try_catch _ _)) =>
  apply emitting_try_catch; [| intros ?; cbn beta] : trace.
#[local] Hint Extern 2 (returning _ (bind _ _)) =>
  apply returning_bind; [| intros ?; cbn beta] : trace.
#[local] Hint Extern 2 (returning _ (try_catch _ _)) =>
  apply returning_try_catch; [| intros ?; cbn beta] : trace.
#[local] Hint Extern 3 (emitting _ (match ?x with _ => _ end)) =>
  destruct x : trace.
#[local] Hint Extern 3 (returning _ (match ?x with _ => _ end)) =>
  destruct x : trace.

Section DispatchLoops.
Context (env : Env).

(** Inside [sendSMS] only the console and the backend are touched. *)
Lemma sendSMS_body_returning to message :
  returning (λ e, sms_of e = None) (sendSMS_body env to message).
Proof.
  unfold sendSMS_body. cbv zeta.
  destruct (is_null _ || negb _); auto 12 with trace.
Qed.

Lemma emitting_pushToParticipants P participants payload :
  (∀ p r, P (SendPushNotification p payload r)) →
  emitting P (pushToParticipants env participants payload).
Proof. intros HP. induction participants; cbn; auto with trace. Qed.

End DispatchLoops.

Section EmergencySMS.
Context (env : Env).

Lemma omap_all_None {A B} (f : A → option B) (l : list A) :
  Forall (λ x, f x = None) l → omap f l = [].
Proof. induction 1 as [| x l Hx _ IH]; cbn; [done |]. by rewrite Hx. Qed.

Lemma smsSends_app t1 t2 : smsSends (t1 ++ t2) = smsSends t1 ++ smsSends t2.
Proof. apply omap_app. Qed.

Lemma sendSMS_spec to message t :
  ∃ r new, sendSMS env to message t = (Returns r, t ++ new)
           ∧ smsSends new = [(to, message, r)].
Proof.
  destruct (sendSMS_body_returning env to message t) as (r & new & Hrun & HP).
  exists r, (new ++ [SendSMS to message r]). split.
  - unfold sendSMS, bind. rewrite Hrun. cbn. by rewrite app_assoc.
  - rewrite smsSends_app. unfold smsSends at 1. by rewrite omap_all_None.
Qed.

Lemma sendToContacts_spec contacts message sent0 failed0 t :
  ∃ counts new,
    sendToContacts env contacts message sent0 failed0 t
    = (Returns counts, t ++ new)
    ∧ (smsSends new).*1 = (λ c, (phone c, message)) <$> contacts
    ∧ sent counts = sent0 + succeeded new
    ∧ failed counts = failed0 + unsuccessful new.
Proof.
  revert sent0 failed0 t.
  induction contacts as [| contact contacts IH]; intros sent0 failed0 t.
  - exists (mkSmsCounts sent0 failed0), []. cbn. rewrite app_nil_r.
    unfold succeeded, unsuccessful. cbn. repeat split; lia.
  - cbn [sendToContacts]. unfold bind at 1.
    destruct (sendSMS_spec (phone contact) message t) as (r & new & -> & Hsms).
    destruct (success r) eqn:Hr.
    + destruct (IH (S sent0) failed0 (t ++ new))
        as (counts & new' & -> & Hto & Hsent & Hfailed).
      exists counts, (new ++ new'). rewrite app_assoc. split; [done |].
      unfold succeeded, unsuccessful in *.
      rewrite smsSends_app, Hsms, fmap_app, Hto. cbn [app].
      rewrite filter_cons_True, filter_cons_False by (cbn; congruence).
      cbn. repeat split; lia.
    + destruct (IH sent0 (S failed0) (t ++ new))
        as (counts & new' & -> & Hto & Hsent & Hfailed).
      exists counts, (new ++ new'). rewrite app_assoc. split; [done |].
      unfold succeeded, unsuccessful in *.
      rewrite smsSends_app, Hsms, fmap_app, Hto. cbn [app].
      rewrite filter_cons_False, filter_cons_True by (cbn; congruence).
      cbn. repeat split; lia.
Qed.

Lemma succeeded_unsuccessful t :
  succeeded t + unsuccessful t = length (smsSends t).
Proof.
  unfold succeeded, unsuccessful.
  induction (smsSends t) as [| x l IH]; [done |].
  destruct (success x.2) eqn:Hx.
  - rewrite filter_cons_True, filter_cons_False by congruence. cbn. lia.
  - rewrite filter_cons_False, filter_cons_True by congruence. cbn. lia.
Qed.

(** C6. [sendEmergencySMS] returns, whatever the sends do; the SMS sends it
    makes are one per contact, in order, each to the contact's phone and
    with the emergency text; [sent] and [failed] count the sends that
    reported success and failure, so they add up to the number of contacts;
    with three contacts and one failing send the result is
    [{ sent: 2, failed: 1 }]. *)
Theorem sendEmergencySMS_counts (contacts : list Contact) (location : LatLng)
    (tripId userName : string) (t : list Event) :
  ∃ counts new,
    sendEmergencySMS env contacts location tripId userName t
    = (Returns counts, t ++ new)
    ∧ (smsSends new).*1
      = (λ c, (phone c, emergencyMessage env location tripId userName))
        <$> contacts
    ∧ sent counts = succeeded new
    ∧ failed counts = unsuccessful new
    ∧ sent counts + failed counts = length contacts
    ∧ (length contacts = 3 → unsuccessful new = 1 →
       counts = mkSmsCounts 2 1).
Proof.
  unfold sendEmergencySMS. cbv zeta.
  destruct (sendToContacts_spec contacts
              (emergencyMessage env location tripId userName) 0 0 t)
    as (counts & new & Hrun & Hto & Hsent & Hfailed).
  exists counts, new. cbn in Hsent, Hfailed.
  assert (Hlen : sent counts + failed counts = length contacts).
  { rewrite Hsent, Hfailed, succeeded_unsuccessful.
    rewrite <- (length_fmap fst), Hto. by rewrite length_fmap. }
  repeat split; try done.
  intros H3 H1. destruct counts as [s f]. cbn in *. f_equal; lia.
Qed.

End EmergencySMS.

Section EmergencyDispatcher.
Context (env : Env).

Lemma sendEmergencySMS_emitting contacts location tripId userName :
  emitting (λ _, True) (sendEmergencySMS env contacts location tripId userName).
Proof.
  intros t. unfold sendEmergencySMS. cbv zeta.
  destruct (sendToContacts_spec env contacts
              (emergencyMessage env location tripId userName) 0 0 t)
    as (counts & new & -> & _).
  exists new. split; [done |]. by apply Forall_true.
Qed.

(** The outer [try]/[catch] of [notifyEmergencyContacts] absorbs whatever
    the fan-out raises. *)
Lemma notifyEmergencyContacts_returning tripId userId location :
  returning (λ _, True) (notifyEmergencyContacts env tripId userId location).
Proof.
  pose proof sendEmergencySMS_emitting. pose proof emitting_pushToParticipants.
  unfold notifyEmergencyContacts. auto 20 with trace.
Qed.

Local Ltac absent H :=
  repeat (apply elem_of_cons in H as [H | H]; [done |]);
  by apply elem_of_nil in H.

(** The two ways a call of [sendEmergencySOS] can go. *)
Lemma sendEmergencySOS_cases tripId location reason t :
  ∃ b new,
    sendEmergencySOS env tripId location reason t = (Returns b, t ++ new)
    ∧ ((b = false ∧ Forall (λ e, is_notification e = false) new
        ∧ ¬ (identityResolved new ∧ alertWritten new))
       ∨ (b = true ∧ identityResolved new ∧ alertWritten new)).
Proof.
  unfold sendEmergencySOS, try_catch, bind, await, now, throw, ret, console, emit.
  destruct (auth_getUser env t) as [[user_id |] | e] eqn:Huser.
  - set (row := mkAlertRow _ _ _ _ _ _).
    destruct (emergency_alerts_insert env _ row) as [[e |] | e] eqn:Hins.
    + eexists false, [_; _; _]. split; [by rewrite <- !app_assoc |].
      left. split; [done |]. split; [by repeat constructor |].
      intros [_ [row' Hin]]. absent Hin.
    + destruct (notifyEmergencyContacts_returning tripId user_id location
                  ((t ++ [GetUser (Returns (Some user_id))])
                   ++ [InsertEmergencyAlert row (Returns None)]))
        as ([] & new & -> & _).
      exists true, ([GetUser (Returns (Some user_id));
                     InsertEmergencyAlert row (Returns None)] ++ new).
      split; [by rewrite <- !app_assoc |].
      right. split; [done |]. split.
      * exists user_id. apply elem_of_app. left. apply elem_of_cons. by left.
      * exists row. apply elem_of_app. left. apply elem_of_cons. right.
        apply elem_of_cons. by left.
    + eexists false, [_; _; _]. split; [by rewrite <- !app_assoc |].
      left. split; [done |]. split; [by repeat constructor |].
      intros [_ [row' Hin]]. absent Hin.
  - eexists false, [_; _]. split; [by rewrite <- !app_assoc |].
    left. split; [done |]. split; [by repeat constructor |].
    intros [[user_id Hin] _]. absent Hin.
  - eexists false, [_; _]. split; [by rewrite <- !app_assoc |].
    left. split; [done |]. split; [by repeat constructor |].
    intros [[user_id Hin] _]. absent Hin.
Qed.

(** C1. A call of [sendEmergencySOS] returns; and if in that call the
    caller's identity was not resolved or no alert was written, it returns
    false and none of its interactions is an SMS send, a push send or a
    request to the backend. *)
Theorem sendEmergencySOS_fatal (tripId : string) (location : LatLng)
    (reason : option string) (t : list Event) :
  ∃ b new,
    sendEmergencySOS env tripId location reason t = (Returns b, t ++ new)
    ∧ (¬ identityResolved new ∨ ¬ alertWritten new →
       b = false ∧ Forall (λ e, is_notification e = false) new).
Proof.
  destruct (sendEmergencySOS_cases tripId location reason t)
    as (b & new & Hrun & [(Hb & Hquiet & _) | (_ & Hid & Halert)]);
    exists b, new; (split; [done |]).
  - done.
  - intros [Hno | Hno]; by destruct Hno.
Qed.

(** C2. A call of [sendEmergencySOS] returns; and if in that call the
    caller's identity was resolved and the alert was written, it returns
    true, whatever the fan-out did. *)
Theorem sendEmergencySOS_best_effort (tripId : string) (location : LatLng)
    (reason : option string) (t : list Event) :
  ∃ b new,
    sendEmergencySOS env tripId location reason t = (Returns b, t ++ new)
    ∧ (identityResolved new → alertWritten new → b = true).
Proof.
  destruct (sendEmergencySOS_cases tripId location reason t)
    as (b & new & Hrun & [(_ & _ & Hnot) | (Hb & _ & _)]);
    exists b, new; (split; [done |]).
  - intros Hid Halert. by destruct Hnot.
  - done.
Qed.

(** *** Trip status *)

Lemma storedStatus_snoc tripId t fields :
  storedStatus tripId (t ++ [UpdateTrip tripId fields (Returns None)])
  = Some (tu_status fields).
Proof.
  unfold storedStatus. rewrite omap_app. cbn.
  rewrite decide_True by done. apply last_snoc.
Qed.

(** C7. [updateTripStatus] never looks at the status the trip has. With an
    eta that is absent or a valid date it asks the store for exactly one
    write, of the given status, eta, distance and duration, and returns;
    it returns true exactly when the store accepted that write and false
    exactly when the store reported an error or the request raised; an
    accepted write is the trip's status from then on. With an eta that is
    an Invalid Date it returns false and asks the store for nothing. *)
Theorem updateTripStatus_permissive (tripId : string) (status : Status)
    (eta : option JsDate) (distance duration : option R) (t : list Event) :
  (∀ iso, optional_toISOString eta = Returns iso →
     let fields := mkTripUpdate status iso distance duration (clock env t) in
     let r := trips_update env t tripId fields in
     ∃ b log,
       updateTripStatus env tripId status eta distance duration t
       = (Returns b, t ++ UpdateTrip tripId fields r :: log)
       ∧ (b = true ↔ r = Returns None)
       ∧ (b = false ↔ r ≠ Returns None)
       ∧ Forall (λ e, ∃ line, e = Console "error" line) log
       ∧ (r = Returns None →
          log = [] ∧
          storedStatus tripId (t ++ UpdateTrip tripId fields r :: log)
          = Some status))
  ∧ (∀ e, optional_toISOString eta = Throws e →
       updateTripStatus env tripId status eta distance duration t
       = (Returns false, t ++ [Console "error" "Failed to update trip status:"])).
Proof.
  split.
  - intros iso Hiso fields r. subst r.
    unfold updateTripStatus, try_catch, bind, evaluate, await, now, throw, ret,
      console, emit.
    rewrite Hiso. fold fields.
    destruct (trips_update env t tripId fields) as [[e |] | e] eqn:Hr.
    + eexists false, [_]. split; [by rewrite <- app_assoc |].
      split; [done |]. split; [done |].
      split; [repeat constructor; by eexists |]. done.
    + eexists true, []. split; [done |].
      repeat split; try done. by rewrite storedStatus_snoc.
    + eexists false, [_]. split; [by rewrite <- app_assoc |].
      split; [done |]. split; [done |].
      split; [repeat constructor; by eexists |]. done.
  - intros e He.
    unfold updateTripStatus, try_catch, bind, evaluate, console, emit, ret.
    by rewrite He.
Qed.

(** *** Location publishing *)


End EmergencyDispatcher.

(** ** Runs in the sample environments *)

(** Nobody is signed in: the call fails after [getUser]. *)
Lemma sendEmergencySOS_fatal_witness :
  ∃ new,
    sendEmergencySOS (signedOut demoEnv) "trip-12345678" origin None []
    = (Returns false, new)
    ∧ Forall (λ e, is_notification e = false) new.
Proof.
  destruct (sendEmergencySOS_fatal (signedOut demoEnv) "trip-12345678"
              origin None []) as (b & new & Hrun & Hfatal).
  assert (Hnew : new = [GetUser (Returns None);
                        Console "error" "Failed to send SOS:"]).
  { vm_compute in Hrun. congruence. }
  destruct Hfatal as [-> Hquiet].
  - left. intros [user_id Hin]. subst new.
    repeat (apply elem_of_cons in Hin as [Hin | Hin]; [done |]).
    by apply elem_of_nil in Hin.
  - exists new. by split.
Defined.

(** The store refuses the alert: the call fails after the insert. *)
Lemma sendEmergencySOS_refused_alert :
  ∃ row,
    sendEmergencySOS (refusingAlerts demoEnv) "trip-12345678" origin None []
    = (Returns false,
       [GetUser (Returns (Some "user-1"));
        InsertEmergencyAlert row (Returns (Some "permission denied"));
        Console "error" "Failed to send SOS:"]).
Proof. eexists. vm_compute. reflexivity. Qed.

(** The signed-in user's alert is written and one SMS of three fails: the
    call succeeds. *)
Lemma sendEmergencySOS_best_effort_witness :
  ∃ new,
    sendEmergencySOS demoEnv "trip-12345678" origin None [] = (Returns true, new)
    ∧ succeeded new = 2 ∧ unsuccessful new = 1.
Proof.
  destruct (sendEmergencySOS_best_effort demoEnv "trip-12345678"
              origin None []) as (b & new & Hrun & Htrue).
  pose proof Hrun as Hlist. vm_compute in Hlist. injection Hlist as _ Hnew.
  assert (Hb : b = true).
  { apply Htrue; rewrite <- Hnew.
    - exists "user-1". apply elem_of_cons. by left.
    - eexists. apply elem_of_cons. right. apply elem_of_cons. by left. }
  exists new. subst b. split; [exact Hrun |].
  rewrite <- Hnew. split; vm_compute; reflexivity.
Defined.

(** Three contacts, the second send refused by the backend. *)
Lemma sendEmergencySMS_counts_witness :
  ∃ new,
    sendEmergencySMS demoEnv contactsOfDana origin "trip-12345678" "Dana" []
    = (Returns (mkSmsCounts 2 1), new).
Proof.
  destruct (sendEmergencySMS_counts demoEnv contactsOfDana origin
              "trip-12345678" "Dana" [])
    as (counts & new & Hrun & _ & _ & _ & _ & Hthree).
  pose proof Hrun as Hlist. vm_compute in Hlist. injection Hlist as _ Hnew.
  rewrite Hthree in Hrun.
  - by exists new.
  - reflexivity.
  - rewrite <- Hnew. vm_compute. reflexivity.
Defined.

(** A completed trip is put back to waiting. *)
Lemma updateTripStatus_permissive_witness :
  let t := [UpdateTrip "trip-1" (mkTripUpdate completed None None None 0)
              (Returns None)] in
  ∃ new,
    updateTripStatus demoEnv "trip-1" waiting (Some (ValidDate 1000)) None
      None t
    = (Returns true, t ++ new)
    ∧ storedStatus "trip-1" t = Some completed
    ∧ storedStatus "trip-1" (t ++ new) = Some waiting.
Proof.
  intros t.
  destruct (proj1 (updateTripStatus_permissive demoEnv "trip-1" waiting
                     (Some (ValidDate 1000)) None None t) (Some 1000%Z) eq_refl)
    as (b & log & Hrun & Htrue & _ & _ & Hstored).
  destruct (Hstored eq_refl) as [Hlog Hst].
  assert (Hb : b = true) by (by apply Htrue).
  rewrite Hb in Hrun.
  eexists. split; [exact Hrun |]. split; [reflexivity | exact Hst].
Defined.

(** An eta that is an Invalid Date: the store, which would accept the
    write, is not asked, and the call answers false. *)
Lemma updateTripStatus_invalid_eta :
  let run := updateTripStatus demoEnv "trip-1" completed (Some InvalidDate)
               None None [] in
  run = (Returns false, [Console "error" "Failed to update trip status:"])
  ∧ (∀ fields r, UpdateTrip "trip-1" fields r ∉ run.2)
  ∧ (∀ t fields, trips_update demoEnv t "trip-1" fields = Returns None).
Proof.
  split; [reflexivity |]. split; [| done].
  intros fields r Hin. cbn in Hin.
  apply list_elem_of_singleton in Hin. discriminate Hin.
Qed.


(** * Further properties *)

(** ** GeoMath *)

Section GeoMathMore.
Import GeoMath.
Local Open Scope R_scope.

Lemma Int_part_le (x y : R) : x <= y -> (Int_part x <= Int_part y)%Z.
Proof.
  intros Hxy. destruct (base_Int_part x) as [Hx _].
  destruct (base_Int_part y) as [_ Hy].
  apply Z.lt_succ_r. apply lt_IZR. rewrite succ_IZR. lra.
Qed.


Lemma Math_round_le (x y : R) : x <= y -> (Math_round x <= Math_round y)%Z.
Proof. intros Hxy. unfold Math_round. apply Int_part_le. lra. Qed.


Lemma hav_opp (x : R) : hav (- x) = hav x.
Proof.
  unfold hav. replace (- x / 2) with (- (x / 2)) by lra.
  rewrite sin_neg. unfold Rsqr. ring.
Qed.

Lemma distanceMeters_sym (a b : LatLng) : distanceMeters a b = distanceMeters b a.
Proof.
  unfold distanceMeters. cbv zeta.
  rewrite <- (hav_opp (radians (lat a) - radians (lat b))).
  rewrite <- (hav_opp (radians (lng a) - radians (lng b))).
  replace (- (radians (lat a) - radians (lat b)))
    with (radians (lat b) - radians (lat a)) by lra.
  replace (- (radians (lng a) - radians (lng b)))
    with (radians (lng b) - radians (lng a)) by lra.
  rewrite (Rmult_comm (cos (radians (lat b)))). reflexivity.
Qed.

Lemma distanceMeters_bounds (a b : LatLng) :
  0 <= distanceMeters a b <= PI * 6371000.
Proof.
  unfold distanceMeters. cbv zeta.
  set (h := _ + _).
  pose proof (sqrt_pos h) as Hs.
  pose proof (asin_bound (sqrt h)) as [_ Hu].
  assert (Hl : 0 <= asin (sqrt h)).
  { destruct (Rle_dec 1 (sqrt h)) as [H1 | H1].
    - unfold asin. destruct (Rle_dec (sqrt h) (-1)); [lra |].
      destruct (Rle_dec 1 (sqrt h)); [| lra].
      pose proof PI_RGT_0. lra.
    - destruct (Req_dec (sqrt h) 0) as [-> | Hne]; [rewrite asin_0; lra |].
      rewrite asin_atan by lra. rewrite <- atan_0. left.
      apply atan_increasing. apply Rdiv_lt_0_compat; [lra |].
      apply sqrt_lt_R0. pose proof (Rsqr_incrst_1 (sqrt h) 1).
      rewrite Rsqr_1 in *. lra. }
  lra.
Qed.

(** X1. Distance, duration and the geofence test do not depend on the order
    of the two points. *)
Theorem geo_symmetric (now : Z) (a b : LatLng) (v r : R) :
  distance (calculateETA now a b v) = distance (calculateETA now b a v)
  /\ duration (calculateETA now a b v) = duration (calculateETA now b a v)
  /\ eta (calculateETA now a b v) = eta (calculateETA now b a v)
  /\ isWithinGeofence a b r = isWithinGeofence b a r.
Proof.
  rewrite !calculateETA_unfold. cbv zeta. cbn [distance duration eta].
  rewrite (distanceMeters_sym b a). repeat split.
  unfold isWithinGeofence. cbv zeta.
  rewrite (inline_distance a b), (inline_distance b a), (distanceMeters_sym b a).
  reflexivity.
Qed.




(** X5. The geofence grows with its radius, and a negative radius contains
    nothing, not even its own centre. *)
Theorem isWithinGeofence_radius (p c : LatLng) (r r' : R) :
  (r <= r' -> isWithinGeofence p c r = true -> isWithinGeofence p c r' = true)
  /\ (r < 0 -> isWithinGeofence p c r = false).
Proof.
  split.
  - intros Hr Hin. apply isWithinGeofence_distance.
    apply isWithinGeofence_distance in Hin. lra.
  - intros Hr. apply not_true_is_false. intros Hin.
    apply isWithinGeofence_distance in Hin.
    pose proof (distanceMeters_bounds p c). lra.
Qed.

Lemma isWithinGeofence_radius_witness :
  isWithinGeofence origin origin 100 = true
  /\ isWithinGeofence origin origin (-1) = false.
Proof.
  destruct (isWithinGeofence_radius origin origin 0 100) as [Hgrow _].
  destruct (isWithinGeofence_radius origin origin (-1) 0) as [_ Hneg].
  split; [apply Hgrow; [lra | apply isWithinGeofence_self; lra] | apply Hneg; lra].
Defined.

(** X6. Arrival detection and the displayed distance agree: a position
    inside the geofence of radius [r] around the destination has an
    estimated distance of at most [r], rounded. *)
Theorem isWithinGeofence_distance_shown (now : Z) (p c : LatLng) (r v : R) :
  isWithinGeofence p c r = true ->
  (distance (calculateETA now p c v) <= Math_round r)%Z.
Proof.
  intros Hin. apply isWithinGeofence_distance in Hin.
  rewrite calculateETA_unfold. cbv zeta. cbn [distance].
  by apply Math_round_le.
Qed.

Lemma isWithinGeofence_distance_shown_witness :
  (distance (calculateETA 0 origin origin 0) <= Math_round 100)%Z.
Proof.
  apply (isWithinGeofence_distance_shown 0 origin origin 100 0).
  apply isWithinGeofence_self. lra.
Defined.

End GeoMathMore.

(** ** The channel registry, the location stream, the monitor *)

Section TrackingMoreFacts.
Import GeoMath Js Tracking TrackingMore.

Lemma channels_unsubscribe name w :
  channels (service (unsubscribe name w)) = delete name (channels (service w)).
Proof.
  unfold unsubscribe.
  destruct (channels (service w) !! name) as [c |] eqn:Hreg; [done |].
  by rewrite delete_id.
Qed.

Lemma Accounting_init g : Accounting (init g).
Proof. split; cbn; [done | done | set_solver]. Qed.

Lemma Accounting_same w w' :
  channels (service w') = channels (service w) →
  supabase w' = supabase w →
  navigator w' = navigator w →
  Accounting w → Accounting w'.
Proof. intros Hc Hs Hn [H1 H2 H3]. split; rewrite ?Hc, ?Hs, ?Hn; auto. Qed.

Lemma Accounting_subscribeTo s w :
  Inv w → Accounting w → Accounting (subscribeTo s w).1.
Proof.
  intros HI [H1 H2 H3].
  destruct (subscribeTo_cases s w) as (_ & [[_ [line ->]] | [Hn (ch & Ht & ->)]]).
  - by split.
  - assert (Hfresh : joined (supabase w) !! opened (supabase w) = None).
    { apply eq_None_not_Some. intros Hj. apply (inv_fresh _ HI) in Hj. lia. }
    split; cbn.
    + rewrite !map_size_insert_None by done. lia.
    + rewrite map_size_insert_None by done. lia.
    + done.
Qed.

Lemma Accounting_unsubscribe name w :
  Inv w → Accounting w → Accounting (unsubscribe name w).
Proof.
  intros HI [H1 H2 H3]. unfold unsubscribe.
  destruct (channels (service w) !! name) as [c |] eqn:Hreg; [| by split].
  destruct (inv_registered _ HI _ _ Hreg) as (ch & Hj & _).
  assert (Hpos : 0 < size (joined (supabase w))).
  { destruct (size (joined (supabase w))) eqn:Hsz; [| lia].
    apply map_size_empty_iff in Hsz. rewrite Hsz in Hj.
    by rewrite lookup_empty in Hj. }
  split; cbn.
  - rewrite !map_size_delete_Some by done. lia.
  - rewrite map_size_delete_Some by done. lia.
  - done.
Qed.

Lemma Accounting_stopLocationTracking w w' :
  stopLocationTracking w = Returns w' → Accounting w → Accounting w'.
Proof.
  unfold stopLocationTracking, clearWatch. intros Hstop [H1 H2 H3].
  destruct (locationWatchId (service w)) as [id |].
  - destruct (geolocation (navigator w)); [| done].
    injection Hstop as <-. split; cbn; [done | done |].
    intros id' Hin. apply elem_of_difference in Hin as [Hin _]. by apply H3.
  - injection Hstop as <-. by split.
Qed.

Lemma foldr_unsubscribe_facts (l : list (string * nat)) w :
  Inv w → Accounting w →
  let w' := foldr (λ kc w, unsubscribe kc.1 w) w l in
  Inv w' ∧ Accounting w'
  ∧ channels (service w') = foldr (λ kc m, delete kc.1 m) (channels (service w)) l
  ∧ locationWatchId (service w') = locationWatchId (service w)
  ∧ opened (supabase w') = opened (supabase w)
  ∧ navigator w' = navigator w ∧ timers w' = timers w.
Proof.
  intros HI HA. induction l as [| kc l IH]; cbn; [done |].
  destruct IH as (HI' & HA' & Hc & Hw & Ho & Hn & Ht).
  split; [by apply Inv_unsubscribe |].
  split; [by apply Accounting_unsubscribe |].
  rewrite channels_unsubscribe, Hc. split; [done |].
  unfold unsubscribe.
  destruct (channels _ !! kc.1); cbn; by rewrite ?Hw, ?Ho, ?Hn, ?Ht.
Qed.

Lemma Accounting_call c w w' :
  call c w = Returns w' → Inv w → Accounting w → Accounting w'.
Proof.
  destruct c as [tripId | s | | tripId pickup radius | h | id r]; cbn.
  - intros [= <-] HI HA. unfold startLocationTracking.
    destruct (geolocation (navigator w)); cbn.
    + destruct HA as [H1 H2 H3]. split; cbn; [done | done |].
      intros id Hin. apply elem_of_union in Hin as [Hin | Hin].
      * apply elem_of_singleton in Hin. lia.
      * apply H3 in Hin. lia.
    + by eapply Accounting_same; [..| exact HA].
  - intros [= <-]. apply Accounting_subscribeTo.
  - unfold unsubscribeAll. intros Hstop HI HA.
    eapply Accounting_stopLocationTracking; [exact Hstop |].
    by apply foldr_unsubscribe_facts.
  - intros [= <-] HI HA. by eapply Accounting_same; [..| exact HA].
  - destruct h as [name | | id]; cbn.
    + intros [= <-]. apply Accounting_unsubscribe.
    + intros Hstop _. by apply Accounting_stopLocationTracking.
    + intros [= <-] HI HA. by eapply Accounting_same; [..| exact HA].
  - intros [= <-] HI HA. unfold tick.
    destruct (intervals (timers w) !! id) as [m |]; [| done].
    unfold pollTick. cbv zeta.
    destruct r as [| | [coords |]];
      try (by eapply Accounting_same; [..| exact HA]).
    destruct (isWithinGeofence coords (m_pickup m) (m_radius m));
      by eapply Accounting_same; [..| exact HA].
Qed.

Lemma reachable_Accounting w : reachable w → Accounting w.
Proof.
  induction 1 as [g | c w w' Hreach IH Hcall].
  - apply Accounting_init.
  - eapply Accounting_call; [exact Hcall | by apply reachable_Inv | done].
Qed.

Lemma lookup_foldr_delete (l : list (string * nat)) (m : gmap string nat) k :
  (∀ c, m !! k = Some c → (k, c) ∈ l) →
  foldr (λ kc m, delete kc.1 m) m l !! k = None.
Proof.
  intros Hin. destruct (m !! k) as [c |] eqn:Hk.
  - specialize (Hin c eq_refl). clear Hk.
    induction l as [| kc l IH]; [by apply elem_of_nil in Hin |].
    cbn. apply elem_of_cons in Hin as [<- | Hin].
    + apply lookup_delete_eq.
    + destruct (decide (kc.1 = k)) as [<- | Hne];
        [apply lookup_delete_eq | rewrite lookup_delete_ne by done; auto].
  - clear Hin. induction l as [| kc l IH]; [done |]. cbn.
    destruct (decide (kc.1 = k)) as [<- | Hne];
      [apply lookup_delete_eq | by rewrite lookup_delete_ne].
Qed.

(** X7. In every world a service instance can reach, the registry and the
    realtime client hold the same number of channels, and every channel
    that was ever opened is either still joined or was removed exactly
    once: none is lost and none is removed twice. *)
Theorem registry_accounting (w : World) :
  reachable w →
  size (channels (service w)) = size (joined (supabase w))
  ∧ opened (supabase w)
    = size (joined (supabase w)) + removeCalls (supabase w).
Proof.
  intros Hreach. destruct (reachable_Accounting w Hreach) as [H1 H2 _].
  by split.
Qed.

Lemma registry_accounting_witness :
  let w := (subscribeTo (Passengers "trip-1")
              (subscribeTo (TripStatus "trip-1") (init true)).1).1 in
  size (channels (service w)) = size (joined (supabase w))
  ∧ opened (supabase w)
    = size (joined (supabase w)) + removeCalls (supabase w).
Proof.
  intros w. apply registry_accounting.
  eapply (reachable_call (Subscribe (Passengers "trip-1"))); [| reflexivity].
  eapply (reachable_call (Subscribe (TripStatus "trip-1"))); [| reflexivity].
  apply reachable_init.
Defined.

(** X8. [unsubscribeAll] returns normally from every reachable world and
    leaves the registry empty, no channel joined (one [removeChannel] per
    registered key), and the location stream stopped. It does not touch the
    timers: geofence monitors keep running. *)
Theorem unsubscribeAll_teardown (w : World) :
  reachable w →
  ∃ w', unsubscribeAll w = Returns w'
    ∧ channels (service w') = ∅
    ∧ joined (supabase w') = ∅
    ∧ removeCalls (supabase w')
      = removeCalls (supabase w) + size (channels (service w))
    ∧ locationWatchId (service w') = None
    ∧ currentTripId (service w') = None
    ∧ timers w' = timers w.
Proof.
  intros Hreach. pose proof (reachable_Inv _ Hreach) as HI.
  pose proof (reachable_Accounting _ Hreach) as HA.
  unfold unsubscribeAll.
  destruct (foldr_unsubscribe_facts (map_to_list (channels (service w))) w HI HA)
    as (HI' & HA' & Hc & Hw & Ho & Hn & Ht).
  set (w1 := foldr _ w _) in *.
  assert (Hempty : channels (service w1) = ∅).
  { apply map_empty. intros k. rewrite Hc. apply lookup_foldr_delete.
    intros c Hk. by apply elem_of_map_to_list. }
  assert (Hstop : ∃ w', stopLocationTracking w1 = Returns w').
  { unfold stopLocationTracking, clearWatch.
    destruct (locationWatchId (service w1)) as [id |] eqn:Hid; [| by eexists].
    rewrite (inv_watch _ HI'); [by eexists | by rewrite Hid]. }
  destruct Hstop as [w' Hstop]. exists w'. split; [done |].
  destruct (stopLocationTracking_ended _ _ Hstop) as [Hid Htrip].
  assert (Hsame : channels (service w') = channels (service w1)
                  ∧ supabase w' = supabase w1 ∧ timers w' = timers w1).
  { unfold stopLocationTracking, clearWatch in Hstop.
    destruct (locationWatchId (service w1)).
    - destruct (geolocation (navigator w1)); [| done]. by injection Hstop as <-.
    - by injection Hstop as <-. }
  destruct Hsame as (Hc' & Hs' & Ht').
  assert (Hjoined : joined (supabase w1) = ∅).
  { apply map_size_empty_iff. rewrite <- (acc_size _ HA'), Hempty.
    apply map_size_empty. }
  rewrite Hc', Hs', Ht', Hempty, Hjoined, Ht.
  repeat split; try done.
  pose proof (acc_opened _ HA') as Ho1. pose proof (acc_opened _ HA) as Ho0.
  rewrite Hjoined, map_size_empty, Ho in Ho1.
  rewrite (acc_size _ HA). lia.
Qed.

Lemma unsubscribeAll_teardown_witness :
  let w := (startLocationTracking "trip-1"
              (subscribeTo (TripStatus "trip-1") (init true)).1).1 in
  ∃ w', unsubscribeAll w = Returns w'
    ∧ channels (service w') = ∅ ∧ joined (supabase w') = ∅
    ∧ locationWatchId (service w') = None.
Proof.
  intros w.
  destruct (unsubscribeAll_teardown w) as (w' & Hrun & Hc & Hj & _ & Hid & _).
  - eapply (reachable_call (StartLocationTracking "trip-1")); [| reflexivity].
    eapply (reachable_call (Subscribe (TripStatus "trip-1"))); [| reflexivity].
    apply reachable_init.
  - exists w'. exact (conj Hrun (conj Hc (conj Hj Hid))).
Defined.

(** X9. Subscribing under a key that is not registered and then invoking
    the returned cancel closure is a round trip: the service, the joined
    channels, the position source and the timers are as before; all that
    remains is one more channel opened and one more removed. *)
Theorem subscribe_cancel_roundtrip (w : World) (s : Subscription) :
  reachable w →
  channels (service w) !! channelName s = None →
  ∃ w', invoke (subscribeTo s w).2 (subscribeTo s w).1 = Returns w'
    ∧ service w' = service w
    ∧ joined (supabase w') = joined (supabase w)
    ∧ opened (supabase w') = S (opened (supabase w))
    ∧ removeCalls (supabase w') = S (removeCalls (supabase w))
    ∧ navigator w' = navigator w ∧ timers w' = timers w
    ∧ console w' = console w.
Proof.
  intros Hreach Hnone. pose proof (reachable_Inv _ Hreach) as HI.
  destruct (subscribeTo_cases s w) as (-> & [[Hs _] | [_ (ch & Ht & ->)]]).
  { rewrite Hnone in Hs. by destruct Hs. }
  eexists. split; [reflexivity |].
  assert (Hfresh : joined (supabase w) !! opened (supabase w) = None).
  { apply eq_None_not_Some. intros Hj. apply (inv_fresh _ HI) in Hj. lia. }
  unfold unsubscribe. cbn. rewrite lookup_insert_eq. cbn.
  rewrite !delete_insert_eq, !delete_id by done.
  by destruct w as [[] [] ? ? ? ? ?].
Qed.

Lemma subscribe_cancel_roundtrip_witness :
  let s := DriverLocation "trip-1" "driver-1" in
  ∃ w', invoke (subscribeTo s (init true)).2 (subscribeTo s (init true)).1
        = Returns w'
    ∧ service w' = service (init true)
    ∧ joined (supabase w') = joined (supabase (init true)).
Proof.
  intros s.
  destruct (subscribe_cancel_roundtrip (init true) s (reachable_init true))
    as (w' & Hrun & Hsvc & Hj & _).
  - reflexivity.
  - exists w'. exact (conj Hrun (conj Hsvc Hj)).
Defined.

(** X10. Keys do not interfere: subscribing or cancelling under one key
    leaves the channels joined under every other key, and the registration
    of every other key, as they were. *)
Theorem registry_frame (w : World) (s : Subscription) (name : string) :
  reachable w →
  name ≠ channelName s →
  live name (subscribeTo s w).1 = live name w
  ∧ channels (service (subscribeTo s w).1) !! name = channels (service w) !! name
  ∧ live name (unsubscribe (channelName s) w) = live name w
  ∧ channels (service (unsubscribe (channelName s) w)) !! name
    = channels (service w) !! name.
Proof.
  intros Hreach Hne. pose proof (reachable_Inv _ Hreach) as HI.
  split; [| split; [| split]].
  - destruct (subscribeTo_cases s w) as (_ & [[_ [line ->]] | [_ (ch & Ht & ->)]]);
      [done |].
    apply map_eq. intros c. apply option_eq. intros ch'.
    rewrite !live_lookup. cbn.
    destruct (decide (opened (supabase w) = c)) as [<- | Hc].
    + rewrite lookup_insert_eq. split.
      * intros [[= <-] Htopic]. congruence.
      * intros [Hj _]. assert (is_Some (joined (supabase w) !! opened (supabase w)))
          as Hs by by rewrite Hj.
        apply (inv_fresh _ HI) in Hs. lia.
    + by rewrite lookup_insert_ne.
  - destruct (subscribeTo_cases s w) as (_ & [[_ [line ->]] | [_ (ch & Ht & ->)]]);
      [done |].
    cbn. by rewrite lookup_insert_ne.
  - unfold unsubscribe.
    destruct (channels (service w) !! channelName s) as [c |] eqn:Hreg; [| done].
    destruct (inv_registered _ HI _ _ Hreg) as (ch & Hj & Ht).
    apply map_eq. intros c'. apply option_eq. intros ch'.
    rewrite !live_lookup. cbn.
    destruct (decide (c = c')) as [<- | Hc].
    + rewrite lookup_delete_eq. split; [by intros [? _] |].
      intros [Hj' Htopic]. congruence.
    + by rewrite lookup_delete_ne.
  - rewrite channels_unsubscribe. by rewrite lookup_delete_ne.
Qed.

Lemma registry_frame_witness :
  let w := (subscribeTo (TripStatus "trip-1") (init true)).1 in
  live "trip:trip-1:status" (subscribeTo (Passengers "trip-1") w).1
  = live "trip:trip-1:status" w.
Proof.
  intros w.
  apply (registry_frame w (Passengers "trip-1") "trip:trip-1:status").
  - eapply (reachable_call (Subscribe (TripStatus "trip-1"))); [| reflexivity].
    apply reachable_init.
  - done.
Defined.

End TrackingMoreFacts.

Section LocationAndMonitor.
Import GeoMath Js Tracking TrackingMore.

(** X11. The location stream is a round trip too. Where the platform has a
    position source, [startLocationTracking] answers true and holds a fresh
    watch for the trip, and [stopLocationTracking] then returns normally
    with the set of watches as before and nothing held; where it has none,
    [startLocationTracking] answers false and holds nothing. *)
Theorem location_stream_roundtrip (w : World) (tripId : string) :
  reachable w →
  (geolocation (navigator w) = true →
   let w1 := (startLocationTracking tripId w).1 in
   (startLocationTracking tripId w).2 = true
   ∧ locationWatchId (service w1) = Some (nextWatch (navigator w))
   ∧ currentTripId (service w1) = Some tripId
   ∧ nextWatch (navigator w) ∈ watches (navigator w1)
   ∧ ∃ w2, stopLocationTracking w1 = Returns w2
       ∧ watches (navigator w2) = watches (navigator w)
       ∧ locationWatchId (service w2) = None
       ∧ currentTripId (service w2) = None)
  ∧ (geolocation (navigator w) = false →
     (startLocationTracking tripId w).2 = false
     ∧ service (startLocationTracking tripId w).1 = service w
     ∧ navigator (startLocationTracking tripId w).1 = navigator w).
Proof.
  intros Hreach. pose proof (reachable_Accounting _ Hreach) as HA.
  unfold startLocationTracking. split; intros Hg; rewrite Hg; cbn; [| done].
  split; [done |]. split; [done |]. split; [done |]. split; [set_solver |].
  unfold stopLocationTracking, clearWatch. cbn. rewrite Hg.
  eexists. split; [reflexivity |]. cbn. split; [| done].
  assert (Hfresh : nextWatch (navigator w) ∉ watches (navigator w)).
  { intros Hin. apply (acc_watch_fresh _ HA) in Hin. lia. }
  set_solver.
Qed.

Lemma location_stream_roundtrip_witness :
  ∃ w2, stopLocationTracking (startLocationTracking "trip-1" (init true)).1
        = Returns w2
    ∧ watches (navigator w2) = watches (navigator (init true)).
Proof.
  destruct (location_stream_roundtrip (init true) "trip-1" (reachable_init true))
    as [Hon _].
  destruct (Hon eq_refl) as (_ & _ & _ & _ & w2 & Hstop & Hw & _).
  exists w2. exact (conj Hstop Hw).
Defined.

(** X12. A second [startLocationTracking] without a stop in between does
    not end the first watch: after the one [stopLocationTracking] that
    follows, the service holds nothing, yet the first watch is still
    registered with the position source. *)
Theorem location_stream_leak (w : World) (trip1 trip2 : string) :
  reachable w →
  geolocation (navigator w) = true →
  let w1 := (startLocationTracking trip1 w).1 in
  let w2 := (startLocationTracking trip2 w1).1 in
  ∃ w3, stopLocationTracking w2 = Returns w3
    ∧ locationWatchId (service w3) = None
    ∧ nextWatch (navigator w) ∈ watches (navigator w3)
    ∧ S (nextWatch (navigator w)) ∉ watches (navigator w3).
Proof.
  intros Hreach Hg. pose proof (reachable_Accounting _ Hreach) as HA.
  unfold startLocationTracking. rewrite Hg. cbn. rewrite Hg. cbn.
  unfold stopLocationTracking, clearWatch. cbn. rewrite Hg.
  eexists. split; [reflexivity |]. cbn. split; [done |].
  split; [| set_solver].
  apply elem_of_difference. split; [set_solver |].
  intros Heq. apply elem_of_singleton in Heq. lia.
Qed.

Lemma location_stream_leak_witness :
  ∃ w3,
    stopLocationTracking
      (startLocationTracking "trip-2"
         (startLocationTracking "trip-1" (init true)).1).1 = Returns w3
    ∧ 0 ∈ watches (navigator w3).
Proof.
  destruct (location_stream_leak (init true) "trip-1" "trip-2"
              (reachable_init true) eq_refl) as (w3 & Hstop & _ & Hin & _).
  exists w3. exact (conj Hstop Hin).
Defined.

Lemma tick_other id id' r w :
  id' ≠ id →
  intervals (timers (tick id r w)) !! id' = intervals (timers w) !! id'
  ∧ service (tick id r w) = service w
  ∧ supabase (tick id r w) = supabase w
  ∧ navigator (tick id r w) = navigator w.
Proof.
  intros Hne. unfold tick.
  destruct (intervals (timers w) !! id) as [m |]; [| done].
  unfold pollTick. cbv zeta. destruct r as [| | [coords |]]; try done.
  destruct (isWithinGeofence _ _ _); [| done].
  cbn. by rewrite lookup_delete_ne.
Qed.

(** X13. A cancelled monitor never fires: once its cancel closure has been
    invoked, no firing of the timer queries the store or invokes
    [onArrival]. And monitors are isolated: the ticks of one monitor leave
    every other monitor registered as it was, and never touch the service,
    the realtime client or the position source. *)
Theorem monitor_cancel_and_isolation (w : World) (id : nat)
    (rs : list PollResult) :
  (∀ w1, invoke (IntervalCancel id) w = Returns w1 → ticks id rs w1 = w1)
  ∧ (∀ id', id' ≠ id →
       intervals (timers (ticks id rs w)) !! id' = intervals (timers w) !! id')
  ∧ service (ticks id rs w) = service w
  ∧ supabase (ticks id rs w) = supabase w
  ∧ navigator (ticks id rs w) = navigator w.
Proof.
  split.
  { intros w1 [= <-]. apply ticks_cleared. cbn. apply lookup_delete_eq. }
  revert w. induction rs as [| r rs IH]; intros w; [done |].
  rewrite ticks_cons. destruct (IH (tick id r w)) as (Hi & Hs & Hb & Hn).
  split; [| split; [| split]].
  - intros id' Hne. rewrite (Hi id' Hne). by apply tick_other.
  - rewrite Hs. by apply (tick_other id (S id)); lia.
  - rewrite Hb. by apply (tick_other id (S id)); lia.
  - rewrite Hn. by apply (tick_other id (S id)); lia.
Qed.

(** A monitor cancelled before the rider reaches the pickup point. *)
Lemma monitor_cancel_and_isolation_witness :
  let w := (monitorPickupZone "trip-1" origin None (init true)).1 in
  ticks 0 [PollRow (Some origin)] (clearInterval 0 w) = clearInterval 0 w.
Proof.
  intros w.
  exact (proj1 (monitor_cancel_and_isolation w 0 [PollRow (Some origin)])
           (clearInterval 0 w) eq_refl).
Defined.

Lemma append_assoc (s t u : string) : (s +:+ t) +:+ u = s +:+ (t +:+ u).
Proof.
  induction s as [| c s IH]; [done |].
  change (String c ((s +:+ t) +:+ u) = String c (s +:+ (t +:+ u))).
  by rewrite IH.
Qed.

(** The part of a string before its first colon, and what follows it. *)
Lemma split_at_colon (a b r1 r2 : string) :
  colon_free a → colon_free b →
  a +:+ String colon r1 = b +:+ String colon r2 → a = b ∧ r1 = r2.
Proof.
  revert b. induction a as [| c a IH]; intros [| c' b]; cbn.
  - intros _ _ [= ->]. done.
  - intros _ [Hc' _] [= Heq _]. by destruct Hc'.
  - intros [Hc _] _ [= Heq _]. by destruct Hc.
  - intros [_ Ha] [_ Hb] [= -> Heq]. destruct (IH b Ha Hb Heq) as [-> ->]. done.
Qed.

(** X14. Registry keys tell subscriptions apart as long as trip ids contain
    no colon: two subscribe calls then share a key only if they are the
    same kind of subscription with the same arguments. Without that
    proviso they do not: a driver subscription whose driver id ends in
    [:status] has the key of a status subscription. *)
Theorem channelName_injective (s1 s2 : Subscription) :
  (colon_free (tripIdOf s1) → colon_free (tripIdOf s2) →
   channelName s1 = channelName s2 → s1 = s2)
  ∧ (∀ x y, channelName (DriverLocation x (y +:+ ":status"))
            = channelName (TripStatus (x +:+ ":driver:" +:+ y))).
Proof.
  split.
  - intros H1 H2 Heq.
    destruct s1 as [t1 d1 | t1 | t1], s2 as [t2 d2 | t2 | t2];
      cbn in *; injection Heq as Heq;
      destruct (split_at_colon _ _ _ _ H1 H2 Heq) as [-> Hrest];
      try discriminate Hrest; try done.
    by injection Hrest as ->.
  - intros x y. cbn. f_equal. by rewrite !append_assoc.
Qed.

Lemma channelName_injective_witness :
  channelName (TripStatus "trip-1") ≠ channelName (Passengers "trip-1").
Proof.
  intros Heq.
  apply (channelName_injective (TripStatus "trip-1") (Passengers "trip-1"))
    in Heq; [discriminate | |]; cbn; repeat split; discriminate.
Defined.

End LocationAndMonitor.

(** ** The SMS sender *)

Import TrackingMore DispatchMore.

Section TwilioMore.
Context (env : Env).

Lemma mockMode_is_null :
  mockMode env → is_null (getTwilioConfig env) || negb (twilio_enabled env) = true.
Proof.
  unfold mockMode, getTwilioConfig. cbv zeta. intros [H | [H | H]].
  - rewrite decide_True by (by left). done.
  - rewrite decide_True by (by right). done.
  - rewrite H. apply orb_true_r.
Qed.

Lemma sendSMS_mock to message t :
  mockMode env →
  ∃ sid line,
    sendSMS env to message t
    = (Returns (mkSmsResult true (Some sid) None),
       t ++ [Console "log" line;
             SendSMS to message (mkSmsResult true (Some sid) None)]).
Proof.
  intros Hmock. unfold sendSMS, sendSMS_body. cbv zeta.
  rewrite (mockMode_is_null Hmock).
  eexists _, _. unfold bind, console, emit, now, ret. cbn.
  by rewrite <- app_assoc.
Qed.

Lemma sendToContacts_mock contacts message sent0 failed0 t :
  mockMode env →
  ∃ new,
    sendToContacts env contacts message sent0 failed0 t
    = (Returns (mkSmsCounts (sent0 + length contacts) failed0), t ++ new)
    ∧ Forall (λ e, is_fetch e = false) new.
Proof.
  intros Hmock. revert sent0 t.
  induction contacts as [| c contacts IH]; intros sent0 t.
  - exists []. cbn. rewrite app_nil_r, Nat.add_0_r. done.
  - cbn [sendToContacts]. unfold bind at 1.
    destruct (sendSMS_mock (phone c) message t Hmock) as (sid & line & ->).
    cbn [success]. destruct (IH (S sent0) (t ++ [Console "log" line;
      SendSMS (phone c) message (mkSmsResult true (Some sid) None)]))
      as (new & -> & Hnew).
    eexists. split.
    + rewrite <- app_assoc. do 2 f_equal. cbn. f_equal. lia.
    + apply Forall_app. split; [by repeat constructor | done].
Qed.

(** X15. In mock mode (a Twilio credential missing or empty, or the
    integration switched off) [sendEmergencySMS] makes no request at all
    and still reports every contact as sent and none as failed. *)
Theorem sendEmergencySMS_mock_mode (contacts : list Contact)
    (location : LatLng) (tripId userName : string) (t : list Event) :
  mockMode env →
  ∃ new,
    sendEmergencySMS env contacts location tripId userName t
    = (Returns (mkSmsCounts (length contacts) 0), t ++ new)
    ∧ Forall (λ e, is_fetch e = false) new.
Proof.
  intros Hmock. unfold sendEmergencySMS. cbv zeta.
  apply (sendToContacts_mock contacts _ 0 0 t Hmock).
Qed.

Lemma filter_fetch_quiet (l : list Event) :
  Forall (λ e, is_fetch e = false) l → filter (λ e, is_fetch e = true) l = [].
Proof.
  induction 1 as [| e l He _ IH]; [done |].
  rewrite filter_cons_False by congruence. done.
Qed.

(** The ways [sendSMS] can go when Twilio is configured and switched on. *)
Lemma sendSMS_configured to message t :
  is_null (getTwilioConfig env) || negb (twilio_enabled env) = false →
  let answer := fetch env t "/api/twilio/send-sms" (SmsBody to message) in
  let request := Fetch "/api/twilio/send-sms" (SmsBody to message) answer in
  ∃ r log,
    sendSMS env to message t
    = (Returns r, t ++ request :: log ++ [SendSMS to message r])
    ∧ Forall (λ e, is_fetch e = false) log
    ∧ (success r = true ↔
       ∃ resp j, answer = Returns resp ∧ ok resp = true ∧ json resp = Returns j)
    ∧ (success r = false → is_Some (sms_error r)).
Proof.
  intros Hconf answer request. subst request.
  unfold sendSMS, sendSMS_body. cbv zeta. rewrite Hconf.
  unfold bind, try_catch, await, settle, console, emit, ret. fold answer.
  destruct answer as [[[] [j | e]] | e] eqn:Hanswer; cbn.
  - eexists _, []. split; [by rewrite <- app_assoc |]. split; [done |].
    split; [| done]. split; [by eexists _, _ | done].
  - eexists _, [_]. split; [by rewrite <- !app_assoc |].
    split; [by repeat constructor |]. split; [| by eexists].
    split; [done |]. by intros (resp & j & [= <-] & _ & Hj).
  - eexists _, []. split; [by rewrite <- app_assoc |]. split; [done |].
    split; [| by eexists]. split; [done |].
    by intros (resp & j' & [= <-] & Hok & _).
  - eexists _, [_]. split; [by rewrite <- !app_assoc |].
    split; [by repeat constructor |]. split; [| by eexists].
    split; [done |]. by intros (resp & j & [= <-] & _ & Hj).
  - eexists _, [_]. split; [by rewrite <- !app_assoc |].
    split; [by repeat constructor |]. split; [| by eexists].
    split; [done |]. by intros (resp & j & [=] & _).
Qed.

(** X16. [sendSMS] never raises and makes at most one request. When Twilio
    is configured and switched on it makes exactly one, to the SMS endpoint
    with the number and the text it was given, and reports success exactly
    when that request was answered with an [ok] response whose body could
    be parsed; whenever it reports failure it gives an error text. *)
Theorem sendSMS_outcome (to message : string) (t : list Event) :
  ∃ r new,
    sendSMS env to message t = (Returns r, t ++ new)
    ∧ length (filter (λ e, is_fetch e = true) new) ≤ 1
    ∧ (success r = false → is_Some (sms_error r))
    ∧ (is_null (getTwilioConfig env) || negb (twilio_enabled env) = false →
       let answer := fetch env t "/api/twilio/send-sms" (SmsBody to message) in
       filter (λ e, is_fetch e = true) new
       = [Fetch "/api/twilio/send-sms" (SmsBody to message) answer]
       ∧ (success r = true ↔
          ∃ resp j,
            answer = Returns resp ∧ ok resp = true ∧ json resp = Returns j)).
Proof.
  destruct (is_null (getTwilioConfig env) || negb (twilio_enabled env))
    eqn:Hmode.
  - assert (Hmock : ∃ sid line,
      sendSMS env to message t
      = (Returns (mkSmsResult true (Some sid) None),
         t ++ [Console "log" line;
               SendSMS to message (mkSmsResult true (Some sid) None)])).
    { unfold sendSMS, sendSMS_body. cbv zeta. rewrite Hmode.
      eexists _, _. unfold bind, console, emit, now, ret. cbn.
      by rewrite <- app_assoc. }
    destruct Hmock as (sid & line & ->). eexists _, _. split; [done |].
    split; [| by split]. rewrite !filter_cons_False by done. cbn. lia.
  - destruct (sendSMS_configured to message t Hmode)
      as (r & log & -> & Hlog & Hiff & Herr).
    exists r. eexists. split; [done |].
    assert (Hfilter :
      filter (λ e, is_fetch e = true)
        (Fetch "/api/twilio/send-sms" (SmsBody to message)
           (fetch env t "/api/twilio/send-sms" (SmsBody to message))
         :: log ++ [SendSMS to message r])
      = [Fetch "/api/twilio/send-sms" (SmsBody to message)
           (fetch env t "/api/twilio/send-sms" (SmsBody to message))]).
    { rewrite filter_cons_True by done. f_equal.
      rewrite filter_app, (filter_fetch_quiet log Hlog).
      by rewrite filter_cons_False. }
    rewrite Hfilter. cbn. split; [lia |]. split; [done |]. done.
Qed.

(** X17. [sendVerificationCode] never raises; it makes exactly one SMS send,
    to the given number with the verification text, and passes on that
    send's success flag and error. In mock mode it therefore reports
    success although no request is made. *)
Theorem sendVerificationCode_outcome (phoneNumber code : string)
    (t : list Event) :
  ∃ res r new,
    sendVerificationCode env phoneNumber code t = (Returns res, t ++ new)
    ∧ smsSends new = [(phoneNumber, verificationMessage code, r)]
    ∧ v_success res = success r ∧ v_error res = sms_error r
    ∧ (mockMode env →
       v_success res = true ∧ Forall (λ e, is_fetch e = false) new).
Proof.
  unfold sendVerificationCode. cbv zeta. unfold bind at 1.
  destruct (sendSMS_spec env phoneNumber (verificationMessage code) t)
    as (r & new & Hrun & Hsms).
  rewrite Hrun. eexists _, r, new. split; [done |]. split; [done |].
  split; [done |]. split; [done |].
  intros Hmock.
  destruct (sendSMS_mock phoneNumber (verificationMessage code) t Hmock)
    as (sid & line & Hmockrun).
  rewrite Hmockrun in Hrun. injection Hrun as <- Hnew.
  apply app_inv_head in Hnew. subst new. split; [done |].
  by repeat constructor.
Qed.

End TwilioMore.

Lemma sendEmergencySMS_mock_mode_witness :
  ∃ new,
    sendEmergencySMS (unconfigured demoEnv) contactsOfDana origin
      "trip-12345678" "Dana" []
    = (Returns (mkSmsCounts 3 0), new)
    ∧ Forall (λ e, is_fetch e = false) new.
Proof.
  destruct (sendEmergencySMS_mock_mode (unconfigured demoEnv) contactsOfDana
              origin "trip-12345678" "Dana" []) as (new & Hrun & Hquiet).
  - by left.
  - exists new. exact (conj Hrun Hquiet).
Defined.

Lemma sendSMS_outcome_witness :
  ∃ r new,
    sendSMS demoEnv "+971500000002" "hello" [] = (Returns r, new)
    ∧ success r = false ∧ is_Some (sms_error r).
Proof.
  destruct (sendSMS_outcome demoEnv "+971500000002" "hello" [])
    as (r & new & Hrun & _ & Herr & Hconf).
  destruct (Hconf eq_refl) as [_ Hiff].
  assert (Hfail : success r = false).
  { apply not_true_is_false. intros Hok. apply Hiff in Hok.
    destruct Hok as (resp & j & Hanswer & Hok & _).
    vm_compute in Hanswer. injection Hanswer as <-. discriminate Hok. }
  exists r, new. exact (conj Hrun (conj Hfail (Herr Hfail))).
Defined.

Lemma sendVerificationCode_outcome_witness :
  ∃ res new,
    sendVerificationCode (unconfigured demoEnv) "+971500000001" "123456" []
    = (Returns res, new)
    ∧ v_success res = true ∧ Forall (λ e, is_fetch e = false) new.
Proof.
  destruct (sendVerificationCode_outcome (unconfigured demoEnv)
              "+971500000001" "123456" [])
    as (res & r & new & Hrun & _ & _ & _ & Hmock).
  destruct Hmock as [Hok Hquiet]; [by left |].
  exists res, new. exact (conj Hrun (conj Hok Hquiet)).
Defined.

(** ** The fan-out of the emergency dispatcher *)

Section FanOut.
Context (env : Env).

Lemma sendSMS_returning (P : Event → Prop) to message :
  (∀ line, P (Console "log" line)) →
  (∀ line, P (Console "error" line)) →
  (∀ r, P (Fetch "/api/twilio/send-sms" (SmsBody to message) r)) →
  (∀ r, P (SendSMS to message r)) →
  returning P (sendSMS env to message).
Proof.
  intros Hlog Herr Hfetch Hsms. unfold sendSMS, sendSMS_body. cbv zeta.
  apply returning_bind.
  - destruct (is_null _ || negb _).
    + apply returning_bind; [by apply returning_console |]. intros _.
      apply returning_bind; [apply returning_now |]. intros stamp.
      apply returning_ret.
    + apply returning_try_catch.
      * apply emitting_bind; [by apply emitting_await |]. intros resp.
        destruct (negb (ok resp));
          (apply emitting_bind; [apply emitting_settle |]); intros j;
          apply emitting_ret.
      * intros e. apply returning_bind; [by apply returning_console |].
        intros _. apply returning_ret.
  - intros r. apply returning_bind; [| intros _; apply returning_ret].
    intros t. eexists (), _. split; [reflexivity |]. by repeat constructor.
Qed.

Lemma sendToContacts_returning (P : Event → Prop) contacts message sent0 failed0 :
  (∀ line, P (Console "log" line)) →
  (∀ line, P (Console "error" line)) →
  (∀ to r, P (Fetch "/api/twilio/send-sms" (SmsBody to message) r)) →
  (∀ to r, P (SendSMS to message r)) →
  returning P (sendToContacts env contacts message sent0 failed0).
Proof.
  intros Hlog Herr Hfetch Hsms. revert sent0 failed0.
  induction contacts as [| c contacts IH]; intros sent0 failed0; cbn.
  - apply returning_ret.
  - apply returning_bind; [by apply sendSMS_returning |].
    intros r. destruct (success r); apply IH.
Qed.

(** What [sendEmergencySMS] leaves in the trace. *)
Lemma sendEmergencySMS_phase contacts location tripId userName t :
  ∃ counts sms,
    sendEmergencySMS env contacts location tripId userName t
    = (Returns counts, t ++ sms)
    ∧ (smsSends sms).*1
      = (λ c, (phone c, emergencyMessage env location tripId userName))
        <$> contacts
    ∧ Forall (λ e, sms_phase e = true) sms.
Proof.
  unfold sendEmergencySMS. cbv zeta.
  set (message := emergencyMessage env location tripId userName).
  destruct (sendToContacts_spec env contacts message 0 0 t)
    as (counts & sms & Hrun & Hto & _).
  exists counts, sms. split; [done |]. split; [done |].
  destruct (sendToContacts_returning (λ e, sms_phase e = true)
              contacts message 0 0) with (t := t)
    as (counts' & sms' & Hrun' & HP); try done.
  rewrite Hrun in Hrun'. injection Hrun' as _ Heq.
  apply app_inv_head in Heq. by subst sms'.
Qed.

(** The push loop stops at the first rejected push. *)
Lemma pushToParticipants_spec payload ps t :
  pushToParticipants env ps payload t = (Returns (), t ++ pushesTo payload ps)
  ∨ ∃ ok p rest e,
      ps = ok ++ p :: rest
      ∧ sendPushNotification env (t ++ pushesTo payload ok) p payload = Throws e
      ∧ pushToParticipants env ps payload t
        = (Throws e,
           t ++ pushesTo payload ok ++ [SendPushNotification p payload (Throws e)]).
Proof.
  revert t. induction ps as [| p ps IH]; intros t.
  - left. cbn. by rewrite app_nil_r.
  - cbn [pushToParticipants]. unfold bind, await.
    destruct (sendPushNotification env t p payload) as [[] | e] eqn:Hp.
    + destruct (IH (t ++ [SendPushNotification p payload (Returns ())]))
        as [-> | (ok & p' & rest & e & -> & Hrej & ->)].
      * left. by rewrite <- app_assoc.
      * right. exists (p :: ok), p', rest, e. split; [done |].
        rewrite <- app_assoc in Hrej. split; [done |].
        by rewrite <- app_assoc.
    + right. exists [], p, ps, e. split; [done |]. split; [| done].
      cbn. by rewrite app_nil_r.
Qed.

(** Every call of [notifyEmergencyContacts] returns, and what it leaves in
    the trace has one of the shapes of [NotifyTrace]. *)
Lemma notifyEmergencyContacts_trace tripId userId location t :
  ∃ new,
    notifyEmergencyContacts env tripId userId location t = (Returns (), t ++ new)
    ∧ NotifyTrace env tripId userId location t new.
Proof.
  unfold notifyEmergencyContacts.
  unfold try_catch at 1, bind at 1, await at 1.
  destruct (profiles_select env t userId) as [[profile |] | e] eqn:Hprofile.
  2:{ eexists. split; [unfold console, emit; by rewrite <- app_assoc |].
      rewrite <- Hprofile. apply NT_no_profile. rewrite Hprofile. by intros p. }
  2:{ eexists. split; [unfold console, emit; by rewrite <- app_assoc |].
      rewrite <- Hprofile. apply NT_no_profile. rewrite Hprofile. by intros p. }
  unfold bind at 1, await at 1.
  destruct (dynamic_import env _ "./twilioService") as [[] | e] eqn:Himp1.
  2:{ eexists. split; [unfold console, emit; by rewrite <- !app_assoc |].
      by apply NT_no_twilio. }
  unfold bind at 1, await at 1.
  destruct (dynamic_import env _ "./integrations") as [[] | e] eqn:Himp2.
  2:{ eexists. split; [unfold console, emit; by rewrite <- !app_assoc |].
      apply NT_no_integrations; [done |]. by rewrite <- app_assoc in Himp2. }
  set (t3 := ((t ++ _) ++ _) ++ _).
  assert (Ht3 : t3 = t ++ profileFound userId profile).
  { subst t3. by rewrite <- !app_assoc. }
  clearbody t3. subst t3. clear Himp1 Himp2.
  cbv zeta.
  set (t3 := t ++ profileFound userId profile).
  assert (Hsms : ∃ sms,
    (if decide (0 < length (default [] (emergency_contacts profile)))
     then
       do sendEmergencySMS env (default [] (emergency_contacts profile))
            location tripId (or_string (full_name profile) "User") then
       ret ()
     else ret ()) t3 = (Returns (), t3 ++ sms)
    ∧ smsPhase env tripId location profile sms).
  { destruct (decide _) as [Hlen | Hlen].
    - unfold bind.
      destruct (sendEmergencySMS_phase (default [] (emergency_contacts profile))
                  location tripId (or_string (full_name profile) "User") t3)
        as (counts & sms & -> & Hto & Hphase).
      exists sms. by split.
    - exists []. split; [unfold ret; by rewrite app_nil_r |].
      unfold smsPhase.
      destruct (default [] (emergency_contacts profile)) as [| c cs];
        [| cbn in Hlen; lia].
      split; [done | constructor]. }
  destruct Hsms as (sms & Hsmsrun & Hphase).
  unfold bind at 1. rewrite Hsmsrun. subst t3. clear Hsmsrun.
  rewrite <- (app_assoc t).
  unfold bind at 1, await at 1.
  destruct (trips_select env (t ++ profileFound userId profile ++ sms) tripId)
    as [trip | e] eqn:Htrip.
  2:{ eexists. split.
      - unfold console, emit. rewrite <- !app_assoc. reflexivity.
      - by apply NT_trip_rejected. }
  set (t4 := (t ++ _ ++ sms) ++ _).
  assert (Ht4 : t4 = t ++ profileFound userId profile ++ sms
                     ++ SelectTrip tripId (Returns trip) :: []).
  { subst t4. by rewrite <- !app_assoc. }
  clearbody t4.
  assert (Hpush :
    (match trip with
     | Some trip0 =>
         pushToParticipants env
           (omap truthy (driver_id trip0 :: default [] (bookings trip0)))
           (mkPushPayload " Emergency Alert"
              ("Emergency SOS activated for trip " +:+ String.substring 0 8 tripId)
              "emergency" tripId location)
     | None => ret ()
     end) t4
    = pushToParticipants env (participantsOf trip) (sosPayload tripId location) t4).
  { destruct trip; [done |]. cbn. unfold ret. done. }
  unfold bind at 1. rewrite Hpush. clear Hpush.
  destruct (pushToParticipants_spec (sosPayload tripId location)
              (participantsOf trip) t4)
    as [-> | (ok & p & rest & e & Hps & Hrej & ->)].
  2:{ eexists. split.
      - unfold console, emit. rewrite Ht4, <- !app_assoc. reflexivity.
      - eapply NT_push_rejected; try done.
        rewrite Ht4, <- !app_assoc in Hrej. exact Hrej. }
  unfold bind at 1, try_catch at 1, bind at 1, now.
  unfold bind at 1, await at 1.
  set (t5 := t4 ++ _).
  set (body := EmergencyBody tripId userId location (clock env t5)).
  destruct (fetch env t5 "/api/emergency/notify" body) as [resp | e] eqn:Hfetch.
  - eexists. split.
    + unfold ret, console, emit. subst t5. rewrite Ht4, <- !app_assoc.
      reflexivity.
    + apply NT_done; try done. by exists (clock env t5), (Returns resp).
  - eexists. split.
    + unfold ret, console, emit. subst t5. rewrite Ht4, <- !app_assoc.
      reflexivity.
    + apply NT_done; try done. by exists (clock env t5), (Throws e).
Qed.

End FanOut.

(** ** What the fan-out sends *)

Section FanOutFacts.
Context (env : Env).

Local Ltac nowhere H :=
  repeat (apply elem_of_cons in H as [H | H]; [done |]);
  by apply elem_of_nil in H.

Lemma last_app_Some {A} (l1 l2 : list A) x :
  last l2 = Some x → last (l1 ++ l2) = Some x.
Proof. intros H. by rewrite last_app, H. Qed.

Lemma last_cons_Some {A} (l : list A) x y :
  last l = Some y → last (x :: l) = Some y.
Proof. intros H. rewrite last_cons. by rewrite H. Qed.

Local Ltac ends_with :=
  repeat first [done | apply last_app_Some | apply last_cons_Some].

Lemma sms_phase_fanout e : sms_phase e = true → fanout_event e = true.
Proof. by destruct e. Qed.

Lemma sms_phase_quiet sms :
  Forall (λ e, sms_phase e = true) sms →
  pushSends sms = [] ∧ emergencyRequests sms = [].
Proof.
  induction 1 as [| e sms He _ [IHp IHe]]; [done |].
  unfold pushSends, emergencyRequests in *. cbn.
  rewrite IHp, IHe.
  destruct e as [| | | | | | | url [to msg | a b c d] r | | |]; try done.
Qed.

Lemma pushSends_pushesTo payload ps :
  pushSends (pushesTo payload ps) = (λ p, (p, payload, Returns ())) <$> ps.
Proof.
  unfold pushSends, pushesTo. induction ps as [| p ps IH]; [done |].
  cbn. by rewrite IH.
Qed.

Lemma emergencyRequests_pushesTo payload ps :
  emergencyRequests (pushesTo payload ps) = [].
Proof. unfold emergencyRequests, pushesTo. by induction ps. Qed.

Lemma smsSends_pushesTo payload ps : smsSends (pushesTo payload ps) = [].
Proof. unfold smsSends, pushesTo. by induction ps. Qed.

Lemma pushesTo_fanout payload ps :
  Forall (λ e, fanout_event e = true) (pushesTo payload ps).
Proof. unfold pushesTo. induction ps; by constructor. Qed.

Lemma servicesPhase_reads tripId userId location tail :
  servicesPhase tripId userId location tail →
  smsSends tail = [] ∧ pushSends tail = []
  ∧ (∃ timestamp r,
       emergencyRequests tail
       = [(EmergencyBody tripId userId location timestamp, r)])
  ∧ Forall (λ e, fanout_event e = true) tail
  ∧ last tail = Some (Console "log" "Emergency notifications sent:").
Proof.
  intros (timestamp & r & ->).
  split; [by destruct r |]. split; [by destruct r |].
  split; [exists timestamp, r; by destruct r |].
  split; destruct r; by repeat constructor.
Qed.

(** The fan-out records no identity lookup and no write to the store. *)
Lemma NotifyTrace_fanout tripId userId location t new :
  NotifyTrace env tripId userId location t new →
  Forall (λ e, fanout_event e = true) new.
Proof.
  assert (Hsms : ∀ profile sms,
            smsPhase env tripId location profile sms →
            Forall (λ e, fanout_event e = true) sms).
  { intros profile sms [_ Hphase].
    eapply Forall_impl; [exact Hphase |]. apply sms_phase_fanout. }
  destruct 1 as [line Hno | profile e Hp Hi | profile e Hp Hi
                | profile sms e Hp Hphase Ht
                | profile sms trip ok p rest e Hp Hphase Ht Hps Hrej
                | profile sms trip tail Hp Hphase Ht Htail].
  - by repeat constructor.
  - by repeat constructor.
  - by repeat constructor.
  - apply Forall_app. split; [by repeat constructor |].
    apply Forall_app. split; [by eapply Hsms |]. by repeat constructor.
  - apply Forall_app. split; [by repeat constructor |].
    apply Forall_app. split; [by eapply Hsms |].
    constructor; [done |].
    apply Forall_app. split; [apply pushesTo_fanout | by repeat constructor].
  - apply Forall_app. split; [by repeat constructor |].
    apply Forall_app. split; [by eapply Hsms |].
    constructor; [done |].
    apply Forall_app. split; [apply pushesTo_fanout |].
    by apply servicesPhase_reads in Htail as (_ & _ & _ & Hfan & _).
Qed.

(** The pushes and the requests to the emergency services in each shape. *)
Lemma NotifyTrace_sends tripId userId location t new :
  NotifyTrace env tripId userId location t new →
  (pushSends new = [] ∧ emergencyRequests new = []
   ∧ (∀ trip, SelectTrip tripId (Returns trip) ∉ new))
  ∨ (∃ trip ok p rest e,
       participantsOf trip = ok ++ p :: rest
       ∧ SelectTrip tripId (Returns trip) ∈ new
       ∧ pushSends new
         = ((λ q, (q, sosPayload tripId location, Returns ())) <$> ok)
           ++ [(p, sosPayload tripId location, Throws e)]
       ∧ emergencyRequests new = []
       ∧ last new
         = Some (Console "error" "Failed to notify emergency contacts:"))
  ∨ (∃ trip timestamp r,
       SelectTrip tripId (Returns trip) ∈ new
       ∧ pushSends new
         = (λ q, (q, sosPayload tripId location, Returns ()))
           <$> participantsOf trip
       ∧ emergencyRequests new
         = [(EmergencyBody tripId userId location timestamp, r)]
       ∧ last new = Some (Console "log" "Emergency notifications sent:")).
Proof.
  destruct 1 as [line Hno | profile e Hp Hi | profile e Hp Hi
                | profile sms e Hp [_ Hphase] Ht
                | profile sms trip ok p rest e Hp [_ Hphase] Ht Hps Hrej
                | profile sms trip tail Hp [_ Hphase] Ht Htail].
  - left. split; [done |]. split; [done |].
    intros trip Hin. nowhere Hin.
  - left. split; [done |]. split; [done |].
    intros trip Hin. nowhere Hin.
  - left. split; [done |]. split; [done |].
    intros trip Hin. nowhere Hin.
  - left. destruct (sms_phase_quiet _ Hphase) as [Hpush Hem].
    unfold pushSends, emergencyRequests in *.
    rewrite !omap_app, Hpush, Hem. split; [done |]. split; [done |].
    intros trip Hin.
    apply elem_of_app in Hin as [Hin | Hin]; [nowhere Hin |].
    apply elem_of_app in Hin as [Hin | Hin]; [| nowhere Hin].
    eapply Forall_forall in Hphase; [| exact Hin]. done.
  - right. left. exists trip, ok, p, rest, e.
    destruct (sms_phase_quiet _ Hphase) as [Hpush Hem].
    split; [done |]. split.
    { apply elem_of_app. right. apply elem_of_app. right. by left. }
    pose proof (pushSends_pushesTo (sosPayload tripId location) ok) as Hok.
    pose proof (emergencyRequests_pushesTo (sosPayload tripId location) ok)
      as Hokem.
    unfold pushSends, emergencyRequests in *.
    split; [| split].
    + rewrite !omap_app, Hpush. cbn. by rewrite omap_app, Hok.
    + rewrite !omap_app, Hem. cbn. by rewrite omap_app, Hokem.
    + ends_with.
  - right. right.
    destruct (sms_phase_quiet _ Hphase) as [Hpush Hem].
    destruct (servicesPhase_reads _ _ _ _ Htail)
      as (_ & Htp & (timestamp & r & Hte) & _ & Hlast).
    exists trip, timestamp, r. split.
    { apply elem_of_app. right. apply elem_of_app. right. by left. }
    pose proof (pushSends_pushesTo (sosPayload tripId location)
                  (participantsOf trip)) as Hok.
    pose proof (emergencyRequests_pushesTo (sosPayload tripId location)
                  (participantsOf trip)) as Hokem.
    unfold pushSends, emergencyRequests in *.
    split; [| split].
    + rewrite !omap_app, Hpush. cbn.
      by rewrite omap_app, Hok, Htp, app_nil_r.
    + rewrite !omap_app, Hem. cbn. by rewrite omap_app, Hokem, Hte.
    + ends_with.
Qed.

End FanOutFacts.

(** ** The emergency dispatcher, end to end *)

Section DispatcherMore.
Context (env : Env).

(** X18. With the profile read, both modules loaded, the trip read and
    every push accepted, [notifyEmergencyContacts] returns after one SMS
    per emergency contact, in order and with the emergency text; one push
    per participant of the trip (the driver first, passengers without an
    id left out), each with the SOS payload; and exactly one request to the
    emergency services, for this trip, user and location; its last act is
    the closing log line.  A trip that is not found gets no push, the
    emergency services are notified all the same. *)
Theorem notifyEmergencyContacts_fan_out (tripId userId : string)
    (location : LatLng) (profile : Profile) (trip : option TripParticipants)
    (t : list Event) :
  (∀ t', profiles_select env t' userId = Returns (Some profile)) →
  (∀ t' path, dynamic_import env t' path = Returns ()) →
  (∀ t', trips_select env t' tripId = Returns trip) →
  (∀ t' p payload, sendPushNotification env t' p payload = Returns ()) →
  ∃ new timestamp r,
    notifyEmergencyContacts env tripId userId location t
    = (Returns (), t ++ new)
    ∧ (smsSends new).*1
      = (λ c, (phone c,
               emergencyMessage env location tripId
                 (or_string (full_name profile) "User")))
        <$> default [] (emergency_contacts profile)
    ∧ pushSends new
      = (λ p, (p, sosPayload tripId location, Returns ()))
        <$> participantsOf trip
    ∧ emergencyRequests new
      = [(EmergencyBody tripId userId location timestamp, r)]
    ∧ last new = Some (Console "log" "Emergency notifications sent:").
Proof.
  intros Hprofile Himport Htrip Hpush.
  destruct (notifyEmergencyContacts_trace env tripId userId location t)
    as (new & Hrun & Hshape).
  exists new.
  destruct Hshape as [line Hno | profile' e Hp Hi | profile' e Hp Hi
                     | profile' sms e Hp Hphase Ht
                     | profile' sms trip' ok p rest e Hp Hphase Ht Hps Hrej
                     | profile' sms trip' tail Hp Hphase Ht Htail].
  - by destruct (Hno profile).
  - by rewrite Himport in Hi.
  - by rewrite Himport in Hi.
  - by rewrite Htrip in Ht.
  - by rewrite Hpush in Hrej.
  - rewrite Hprofile in Hp. injection Hp as <-.
    rewrite Htrip in Ht. injection Ht as <-.
    destruct Hphase as [Hto Hphase].
    destruct (sms_phase_quiet _ Hphase) as [Hsp Hse].
    destruct (servicesPhase_reads _ _ _ _ Htail)
      as (Hts & Htp & (timestamp & r & Hte) & _ & Hlast).
    exists timestamp, r. split; [done |].
    pose proof (pushSends_pushesTo (sosPayload tripId location)
                  (participantsOf trip)) as Hpp.
    pose proof (emergencyRequests_pushesTo (sosPayload tripId location)
                  (participantsOf trip)) as Hpe.
    pose proof (smsSends_pushesTo (sosPayload tripId location)
                  (participantsOf trip)) as Hps.
    unfold pushSends, emergencyRequests, smsSends in *.
    split; [| split; [| split]].
    + rewrite !omap_app. cbn. rewrite omap_app, Hps, Hts, !app_nil_r. done.
    + rewrite !omap_app, Hsp. cbn. by rewrite omap_app, Hpp, Htp, app_nil_r.
    + rewrite !omap_app, Hse. cbn. by rewrite omap_app, Hpe, Hte.
    + by repeat first [apply last_app_Some | apply last_cons_Some].
Qed.

(** X19. A rejected push ends the fan-out: whenever a call of
    [notifyEmergencyContacts] records a rejected push, the pushes of the
    call are the accepted pushes to the participants listed before the
    rejected one, then the rejected one; the participants listed after it
    get none; no request to the emergency services is made; and the call
    ends with the error line of the outer handler. *)
Theorem rejected_push_ends_fan_out (tripId userId : string)
    (location : LatLng) (t new : list Event) (p : string)
    (payload : PushPayload) (e : string) :
  (notifyEmergencyContacts env tripId userId location t).2 = t ++ new →
  SendPushNotification p payload (Throws e) ∈ new →
  ∃ trip ok rest,
    SelectTrip tripId (Returns trip) ∈ new
    ∧ participantsOf trip = ok ++ p :: rest
    ∧ payload = sosPayload tripId location
    ∧ pushSends new
      = ((λ q, (q, payload, Returns ())) <$> ok) ++ [(p, payload, Throws e)]
    ∧ emergencyRequests new = []
    ∧ last new = Some (Console "error" "Failed to notify emergency contacts:").
Proof.
  intros Hnew Hin.
  destruct (notifyEmergencyContacts_trace env tripId userId location t)
    as (new' & Hrun & Hshape).
  rewrite Hrun in Hnew. cbn in Hnew. apply app_inv_head in Hnew. subst new'.
  assert (Hpushed : (p, payload, Throws e) ∈ pushSends new).
  { unfold pushSends. apply list_elem_of_omap.
    by exists (SendPushNotification p payload (Throws e)). }
  destruct (NotifyTrace_sends _ _ _ _ _ _ Hshape)
    as [(Hnone & _) | [(trip & ok & p' & rest & e' & Hps & Htrip & Hpushes
                        & Hem & Hlast)
                      | (trip & timestamp & r & _ & Hpushes & _)]].
  - rewrite Hnone in Hpushed. by apply elem_of_nil in Hpushed.
  - rewrite Hpushes in Hpushed.
    apply elem_of_app in Hpushed as [Hacc | Hrej].
    + apply list_elem_of_fmap in Hacc as (q & Heq & _). discriminate Heq.
    + apply list_elem_of_singleton in Hrej. injection Hrej as -> -> ->.
      by exists trip, ok, rest.
  - rewrite Hpushes in Hpushed.
    apply list_elem_of_fmap in Hpushed as (q & Heq & _). discriminate Heq.
Qed.

(** X20. [sendEmergencySOS] answers true for a signed-in user without a
    readable profile, once the alert is stored, although then nobody is
    notified: no SMS, no push, and no request to the emergency services
    either, which is made only after the profile was read. *)
Theorem sendEmergencySOS_without_profile (tripId : string)
    (location : LatLng) (reason : option string) (user_id : string)
    (t : list Event) :
  auth_getUser env t = Returns (Some user_id) →
  (∀ t' row, emergency_alerts_insert env t' row = Returns None) →
  (∀ t' profile, profiles_select env t' user_id ≠ Returns (Some profile)) →
  ∃ new,
    sendEmergencySOS env tripId location reason t = (Returns true, t ++ new)
    ∧ alertWritten new
    ∧ Forall (λ e, is_notification e = false) new.
Proof.
  intros Huser Hinsert Hprofile.
  unfold sendEmergencySOS, try_catch, bind, await, now, throw, ret.
  rewrite Huser. cbv zeta. rewrite Hinsert.
  set (row := mkAlertRow _ _ _ _ _ _).
  destruct (notifyEmergencyContacts_trace env tripId user_id location
              ((t ++ [GetUser (Returns (Some user_id))])
               ++ [InsertEmergencyAlert row (Returns None)]))
    as (new & -> & Hshape).
  exists ([GetUser (Returns (Some user_id));
           InsertEmergencyAlert row (Returns None)] ++ new).
  split; [by rewrite <- !app_assoc |]. split.
  { exists row. apply elem_of_app. left. apply elem_of_cons. right.
    apply elem_of_cons. by left. }
  destruct Hshape as [line Hno | profile' e Hp Hi | profile' e Hp Hi
                     | profile' sms e Hp Hphase Ht
                     | profile' sms trip' ok p rest e Hp Hphase Ht Hps Hrej
                     | profile' sms trip' tail Hp Hphase Ht Htail];
    try (by apply Hprofile in Hp).
  by repeat constructor.
Qed.

(** X21. A call of [sendEmergencySOS] returns; it writes to neither the
    trip nor its live location; and it inserts at most one alert, which is
    for the given trip, location and reason, in status "active", for the
    user the identity service named, stamped with the clock read right
    after that answer. *)
Theorem sendEmergencySOS_store_writes (tripId : string) (location : LatLng)
    (reason : option string) (t : list Event) :
  ∃ b new,
    sendEmergencySOS env tripId location reason t = (Returns b, t ++ new)
    ∧ Forall (λ e, touches_trip e = false) new
    ∧ (omap alert_of new = []
       ∨ ∃ user_id r,
           auth_getUser env t = Returns (Some user_id)
           ∧ omap alert_of new
             = [(mkAlertRow tripId user_id location reason "active"
                   (clock env (t ++ [GetUser (Returns (Some user_id))])),
                 r)]).
Proof.
  assert (Hquiet : ∀ new,
            Forall (λ e, fanout_event e = true) new →
            Forall (λ e, touches_trip e = false) new ∧ omap alert_of new = []).
  { induction 1 as [| e new He _ [IH1 IH2]]; [done |].
    split; [constructor; [by destruct e | done] |].
    cbn. rewrite IH2. by destruct e. }
  unfold sendEmergencySOS, try_catch, bind, await, now, throw, ret, console, emit.
  destruct (auth_getUser env t) as [[user_id |] | e] eqn:Huser.
  - cbv zeta. set (row := mkAlertRow _ _ _ _ _ _).
    destruct (emergency_alerts_insert env _ row) as [[e |] | e] eqn:Hins.
    + eexists false, [_; _; _]. split; [by rewrite <- !app_assoc |].
      split; [by repeat constructor |]. right. by exists user_id, (Returns (Some e)).
    + destruct (notifyEmergencyContacts_trace env tripId user_id location
                  ((t ++ [GetUser (Returns (Some user_id))])
                   ++ [InsertEmergencyAlert row (Returns None)]))
        as (new & -> & Hshape).
      apply NotifyTrace_fanout, Hquiet in Hshape as [Htrip Halert].
      exists true, ([GetUser (Returns (Some user_id));
                     InsertEmergencyAlert row (Returns None)] ++ new).
      split; [by rewrite <- !app_assoc |].
      split; [by repeat constructor |].
      right. exists user_id, (Returns None). split; [done |].
      cbn. by rewrite Halert.
    + eexists false, [_; _; _]. split; [by rewrite <- !app_assoc |].
      split; [by repeat constructor |]. right. by exists user_id, (Throws e).
  - eexists false, [_; _]. split; [by rewrite <- !app_assoc |].
    split; [by repeat constructor |]. by left.
  - eexists false, [_; _]. split; [by rewrite <- !app_assoc |].
    split; [by repeat constructor |]. by left.
Qed.


(** X23. The two failures of [broadcastLocation] are not handled alike: a
    failure of the identity service leaves the call with that error before
    anything is published, while a failure of the store is logged and the
    call returns; in both cases at most one upsert is issued. *)
Theorem broadcastLocation_failures (tripId : string) (coords : Coords)
    (t : list Event) :
  (∀ e, auth_getUser env t = Throws e →
     broadcastLocation env tripId coords t
     = (Throws e, t ++ [GetUser (Throws e)]))
  ∧ (∀ user, auth_getUser env t = Returns user →
     ∃ row,
       ll_trip_id row = tripId
       ∧ ll_coordinates row = mkLatLng (latitude coords) (longitude coords)
       ∧ ll_accuracy row = c_accuracy coords
       ∧ ∀ e, live_locations_upsert env (t ++ [GetUser (Returns user)]) row
              = Throws e →
           broadcastLocation env tripId coords t
           = (Returns (),
              t ++ [GetUser (Returns user);
                    UpsertLiveLocation row (Throws e);
                    Console "error" "Failed to broadcast location:"])).
Proof.
  split.
  - intros e He.
    unfold broadcastLocation, try_catch, bind, await, now. by rewrite He.
  - intros user Huser.
    unfold broadcastLocation, try_catch, bind, await, now, ret, console, emit.
    rewrite Huser. cbv zeta. set (row := mkLiveLocationRow _ _ _ _ _ _ _).
    exists row. split; [done |]. split; [done |]. split; [done |].
    intros e He. rewrite He. by rewrite <- !app_assoc.
Qed.

End DispatcherMore.

(** Dana's SOS on a trip with a driver and one rider. *)
Lemma notifyEmergencyContacts_fan_out_witness :
  ∃ new,
    notifyEmergencyContacts demoEnv "trip-12345678" "user-1" origin []
    = (Returns (), new)
    ∧ (smsSends new).*1.*1
      = ["+971500000001"; "+971500000002"; "+971500000003"]
    ∧ (pushSends new).*1.*1 = ["driver-1"; "rider-1"]
    ∧ length (emergencyRequests new) = 1.
Proof.
  destruct (notifyEmergencyContacts_fan_out demoEnv "trip-12345678" "user-1"
              origin (mkProfile (Some "Dana") (Some contactsOfDana))
              (Some (mkTripParticipants (Some "driver-1")
                       (Some [Some "rider-1"; None]))) [])
    as (new & timestamp & r & Hrun & Hsms & Hpush & Hem & _);
    [reflexivity | reflexivity | reflexivity | reflexivity |].
  exists new. split; [exact Hrun |].
  rewrite Hsms, Hpush, Hem. split; [reflexivity |]. split; reflexivity.
Defined.

(** The driver's device rejects the push: the rider gets none and the
    emergency services are not called. *)
Lemma rejected_push_ends_fan_out_witness :
  ∃ new,
    (notifyEmergencyContacts (rejectingPush "driver-1" demoEnv)
       "trip-12345678" "user-1" origin []).2 = new
    ∧ (pushSends new).*1.*1 = ["driver-1"]
    ∧ emergencyRequests new = [].
Proof.
  set (new := (notifyEmergencyContacts (rejectingPush "driver-1" demoEnv)
                 "trip-12345678" "user-1" origin []).2).
  destruct (rejected_push_ends_fan_out (rejectingPush "driver-1" demoEnv)
              "trip-12345678" "user-1" origin [] new "driver-1"
              (sosPayload "trip-12345678" origin) "push failed")
    as (trip & ok & rest & Htrip & Hps & _ & Hpush & Hem & _).
  - reflexivity.
  - subst new. vm_compute.
    repeat first [apply list_elem_of_here | apply list_elem_of_further].
  - exists new. split; [reflexivity |]. split; [| exact Hem].
    subst new. vm_compute. reflexivity.
Defined.

(** A signed-in user whose profile row is missing. *)
Lemma sendEmergencySOS_without_profile_witness :
  ∃ new,
    sendEmergencySOS (withoutProfile demoEnv) "trip-12345678" origin None []
    = (Returns true, new)
    ∧ Forall (λ e, is_notification e = false) new.
Proof.
  destruct (sendEmergencySOS_without_profile (withoutProfile demoEnv)
              "trip-12345678" origin None "user-1" [])
    as (new & Hrun & _ & Hquiet).
  - reflexivity.
  - reflexivity.
  - intros t' profile Heq. discriminate Heq.
  - exists new. exact (conj Hrun Hquiet).
Defined.


(** The identity service is unreachable while a fix comes in. *)
Lemma broadcastLocation_failures_witness :
  broadcastLocation (identityDown demoEnv) "trip-1"
    (mkCoords 25 55 None None 5) []
  = (Throws "network error", [GetUser (Throws "network error")]).
Proof.
  exact (proj1 (broadcastLocation_failures (identityDown demoEnv) "trip-1"
                  (mkCoords 25 55 None None 5) [])
           "network error" eq_refl).
Defined.

(** ** Overlapping calls *)

Section Overlap.
Import GeoMath Js Tracking Interleaving.

(** A call whose promise settles before anything else happens is the call
    of [Tracking]. *)
Lemma unsubscribe_split name w susp :
  schedule [Invokes (ChannelCancel name); RemoveChannelSettles (length susp)]
    (mkRunning w susp)
  = mkRunning (unsubscribe name w) susp.
Proof.
  cbn. unfold unsubscribe_begin, unsubscribe. cbn.
  destruct (channels (service w) !! name) as [c |] eqn:Hreg; cbn.
  - rewrite list_lookup_middle by done. rewrite delete_middle. by rewrite ?app_nil_r.
  - by rewrite lookup_ge_None_2.
Qed.

Lemma tick_split id r w susp :
  schedule [Fires id; QueryAnswers (length susp) r (Returns ())]
    (mkRunning w susp)
  = mkRunning (tick id r w) susp.
Proof.
  cbn. unfold callback_begin, tick. cbn.
  destruct (intervals (timers w) !! id) as [m |] eqn:Hm; cbn.
  - rewrite list_lookup_middle by done. rewrite delete_middle; rewrite ?app_nil_r.
    unfold callback_resume, pollTick. cbn.
    destruct r as [| | [coords |]]; try done;
      by destruct (isWithinGeofence coords (m_pickup m) (m_radius m)).
  - by rewrite lookup_ge_None_2.
Qed.

(** A subscribe call under a key that is not registered. *)
Lemma subscribeTo_opens s w :
  channels (service w) !! channelName s = None →
  ∃ ch, ch_topic ch = channelName s
    ∧ channels (service (subscribeTo s w).1)
      = <[channelName s := opened (supabase w)]> (channels (service w))
    ∧ joined (supabase (subscribeTo s w).1)
      = <[opened (supabase w) := ch]> (joined (supabase w))
    ∧ opened (supabase (subscribeTo s w).1) = S (opened (supabase w))
    ∧ removeCalls (supabase (subscribeTo s w).1) = removeCalls (supabase w).
Proof.
  intros Hnone.
  destruct (subscribeTo_cases s w) as (_ & [[Hs _] | [_ (ch & Ht & ->)]]).
  - rewrite Hnone in Hs. by destruct Hs.
  - by exists ch.
Qed.

Lemma live_open name w w' ch :
  fresh w → ch_topic ch = name →
  joined (supabase w') = <[opened (supabase w) := ch]> (joined (supabase w)) →
  size (live name w') = S (size (live name w)).
Proof.
  intros Hfresh Ht Hj. unfold live. rewrite Hj.
  rewrite map_filter_insert_True by done.
  rewrite map_size_insert_None; [done |].
  apply map_lookup_filter_None. left.
  destruct (joined (supabase w) !! opened (supabase w)) as [ch' |] eqn:Hl;
    [| done].
  assert (opened (supabase w) < opened (supabase w)); [| lia].
  apply Hfresh. by rewrite Hl.
Qed.

(** C4. Two invocations of a cancel closure that overlap leave a key with
    two joined channels. From any world a service instance can reach, and
    for any subscription whose key is not registered there: subscribe;
    invoke the cancel closure twice, the second time before the first has
    resumed; let the first resume; subscribe again; let the second resume,
    which unregisters the channel just opened without removing it;
    subscribe once more. Two channels are then joined under the key. *)
Theorem one_channel_per_key_overlap (w : World) (s : Subscription) :
  reachable w →
  channels (service w) !! channelName s = None →
  let h := (subscribeTo s w).2 in
  let a := schedule [Subscribes s; Invokes h; Invokes h;
                     RemoveChannelSettles 0; Subscribes s;
                     RemoveChannelSettles 0; Subscribes s] (start w) in
  size (live (channelName s) (world a)) = 2 ∧ suspended a = [].
Proof.
  intros Hreach Hnone h a.
  pose proof (reachable_Inv _ Hreach) as HI.
  assert (Hh : h = ChannelCancel (channelName s))
    by apply (subscribeTo_cases s w).
  subst a. rewrite Hh. clear h Hh.
  set (name := channelName s) in *.
  assert (Hlive0 : live name w = ∅) by by apply live_unregistered.
  assert (Hfresh0 : fresh w) by exact (inv_fresh _ HI).
  unfold schedule, start. cbn [foldl].
  (* subscribe *)
  destruct (subscribeTo_opens s w Hnone) as (ch1 & Ht1 & Hc1 & Hj1 & Ho1 & _).
  change (step (Subscribes s) (mkRunning w []))
    with (mkRunning (subscribeTo s w).1 []).
  set (w1 := (subscribeTo s w).1) in *.
  set (c := opened (supabase w)) in *.
  (* cancel, and cancel again before the first has resumed *)
  assert (E2 : step (Invokes (ChannelCancel name)) (mkRunning w1 [])
               = mkRunning (removeChannel c w1) [AwaitsRemoveChannel name]).
  { cbn. unfold unsubscribe_begin. cbn. fold name in Hc1.
    by rewrite Hc1, lookup_insert_eq. }
  rewrite E2. clear E2.
  assert (E3 : step (Invokes (ChannelCancel name))
                 (mkRunning (removeChannel c w1) [AwaitsRemoveChannel name])
               = mkRunning (removeChannel c (removeChannel c w1))
                   [AwaitsRemoveChannel name; AwaitsRemoveChannel name]).
  { cbn. unfold unsubscribe_begin. cbn. fold name in Hc1.
    by rewrite Hc1, lookup_insert_eq. }
  rewrite E3. clear E3.
  (* the first resumes *)
  change (step (RemoveChannelSettles 0)
            (mkRunning (removeChannel c (removeChannel c w1))
               [AwaitsRemoveChannel name; AwaitsRemoveChannel name]))
    with (mkRunning
            (channels_delete name (removeChannel c (removeChannel c w1)))
            [AwaitsRemoveChannel name]).
  set (w4 := channels_delete name _).
  assert (Hn4 : channels (service w4) !! name = None).
  { subst w4. cbn. apply lookup_delete_eq. }
  assert (Hc_new : joined (supabase w) !! c = None).
  { destruct (joined (supabase w) !! c) eqn:Hl; [| done].
    assert (c < c); [| lia]. apply Hfresh0. by rewrite Hl. }
  assert (Hj4 : joined (supabase w4) = joined (supabase w)).
  { subst w4. cbn. rewrite Hj1, delete_insert_eq.
    assert (Hd : delete c (joined (supabase w)) = joined (supabase w))
      by (by apply delete_id).
    by rewrite !Hd. }
  assert (Ho4 : opened (supabase w4) = S c) by (subst w4; cbn; exact Ho1).
  assert (Hlive4 : live name w4 = ∅) by (unfold live; by rewrite Hj4).
  assert (Hfresh4 : fresh w4).
  { intros c'. rewrite Hj4, Ho4. intros Hc'. apply Hfresh0 in Hc'. fold c in Hc'. lia. }
  clearbody w4.
  (* subscribe again *)
  destruct (subscribeTo_opens s w4 Hn4) as (ch5 & Ht5 & Hc5 & Hj5 & Ho5 & _).
  change (step (Subscribes s) (mkRunning w4 [AwaitsRemoveChannel name]))
    with (mkRunning (subscribeTo s w4).1 [AwaitsRemoveChannel name]).
  set (w5 := (subscribeTo s w4).1) in *.
  pose proof (live_open name w4 w5 ch5 Hfresh4 Ht5 Hj5) as Hlive5.
  rewrite Hlive4, map_size_empty in Hlive5.
  (* the second resumes *)
  change (step (RemoveChannelSettles 0)
            (mkRunning w5 [AwaitsRemoveChannel name]))
    with (mkRunning (channels_delete name w5) []).
  set (w6 := channels_delete name w5).
  assert (Hn6 : channels (service w6) !! name = None).
  { subst w6. cbn. apply lookup_delete_eq. }
  assert (Hfresh6 : fresh w6).
  { intros c'. subst w6. cbn. rewrite Hj5, Ho5. intros Hc'.
    destruct (decide (opened (supabase w4) = c')) as [<- | Hne]; [lia |].
    rewrite lookup_insert_ne in Hc' by done. apply Hfresh4 in Hc'. lia. }
  assert (Hlive6 : size (live name w6) = 1) by exact Hlive5.
  clearbody w6.
  (* subscribe once more *)
  destruct (subscribeTo_opens s w6 Hn6) as (ch7 & Ht7 & _ & Hj7 & _).
  change (step (Subscribes s) (mkRunning w6 []))
    with (mkRunning (subscribeTo s w6).1 []).
  cbn [world suspended]. split; [| done].
  rewrite (live_open name w6 _ ch7 Hfresh6 Ht7 Hj7). by rewrite Hlive6.
Qed.

Lemma one_channel_per_key_overlap_witness :
  let s := TripStatus "trip-1" in
  let h := ChannelCancel "trip:trip-1:status" in
  size (live "trip:trip-1:status"
          (world (schedule [Subscribes s; Invokes h; Invokes h;
                            RemoveChannelSettles 0; Subscribes s;
                            RemoveChannelSettles 0; Subscribes s]
                    (start (init true))))) = 2.
Proof.
  intros s h.
  exact (proj1 (one_channel_per_key_overlap (init true) s
                  (reachable_init true) eq_refl)).
Defined.

(** C8. A second invocation of a cancel closure is not always a no-op.
    The closure unsubscribes by key. Invoked a second time after the key
    has been subscribed again, it removes the channel of the new
    subscription; invoked a second time before its first invocation has
    resumed, it calls [removeChannel] once more on the channel already
    being removed. Neither raises. *)
Theorem cancel_again_is_not_noop (w : World) (s : Subscription) :
  reachable w →
  channels (service w) !! channelName s = None →
  let name := channelName s in
  let w1 := (subscribeTo s w).1 in
  let h := (subscribeTo s w).2 in
  (∃ w2 w4,
     invoke h w1 = Returns w2
     ∧ let w3 := (subscribeTo s w2).1 in
       size (live name w3) = 1
       ∧ invoke h w3 = Returns w4
       ∧ live name w4 = ∅
       ∧ channels (service w4) !! name = None
       ∧ removeCalls (supabase w4) = S (removeCalls (supabase w3)))
  ∧ (let a := schedule [Invokes h; Invokes h] (start w1) in
     removeCalls (supabase (world a)) = S (S (removeCalls (supabase w1)))
     ∧ suspended a = [AwaitsRemoveChannel name; AwaitsRemoveChannel name]).
Proof.
  intros Hreach Hnone name w1 h.
  pose proof (reachable_Inv _ Hreach) as HI.
  assert (Hh : h = ChannelCancel name) by apply (subscribeTo_cases s w).
  rewrite Hh. clear h Hh.
  pose proof (Inv_subscribeTo s w HI) as HI1. fold w1 in HI1.
  destruct (subscribeTo_opens s w Hnone) as (ch1 & Ht1 & Hc1 & _).
  fold w1 name in Hc1.
  split.
  - exists (unsubscribe name w1). cbn [invoke].
    set (w2 := unsubscribe name w1).
    pose proof (Inv_unsubscribe name w1 HI1) as HI2. fold w2 in HI2.
    pose proof (unsubscribe_ended name w1) as Hn2. fold w2 in Hn2.
    destruct (subscribeTo_opens s w2 Hn2) as (ch3 & Ht3 & Hc3 & _).
    pose proof (Inv_subscribeTo s w2 HI2) as HI3.
    set (w3 := (subscribeTo s w2).1) in *. fold name in Hc3.
    assert (Hreg3 : channels (service w3) !! name = Some (opened (supabase w2)))
      by (by rewrite Hc3, lookup_insert_eq).
    exists (unsubscribe name w3). split; [done |]. cbv zeta.
    destruct (live_registered name w3 _ HI3 Hreg3) as [ch ->].
    split; [by rewrite map_size_singleton |]. split; [done |].
    split; [| split].
    + apply live_unregistered; [by apply Inv_unsubscribe |].
      apply unsubscribe_ended.
    + apply unsubscribe_ended.
    + by rewrite (unsubscribe_registered name w3 _ Hreg3).
  - unfold schedule, start. cbn [foldl].
    assert (E1 : step (Invokes (ChannelCancel name)) (mkRunning w1 [])
                 = mkRunning (removeChannel (opened (supabase w)) w1)
                     [AwaitsRemoveChannel name]).
    { cbn. unfold unsubscribe_begin. cbn.
      by rewrite Hc1, lookup_insert_eq. }
    rewrite E1. cbn. unfold unsubscribe_begin. cbn.
    by rewrite Hc1, lookup_insert_eq.
Qed.

(** The key of a status subscription is subscribed again after a cancel. *)
Lemma cancel_again_is_not_noop_witness :
  let s := TripStatus "trip-1" in
  let h := ChannelCancel "trip:trip-1:status" in
  ∃ w2 w4,
    invoke h (subscribeTo s (init true)).1 = Returns w2
    ∧ size (live "trip:trip-1:status" (subscribeTo s w2).1) = 1
    ∧ invoke h (subscribeTo s w2).1 = Returns w4
    ∧ live "trip:trip-1:status" w4 = ∅.
Proof.
  intros s h.
  destruct (proj1 (cancel_again_is_not_noop (init true) s
                     (reachable_init true) eq_refl))
    as (w2 & w4 & H1 & H2 & H3 & H4 & _).
  exists w2, w4. exact (conj H1 (conj H2 (conj H3 H4))).
Defined.

(** C5. [onArrival] can be invoked twice. With the monitored position
    inside the geofence: if the timer fires a second time before the
    query of the first firing has been answered, both callbacks invoke
    [onArrival], the second after the interval was cleared; and if
    [onArrival] raises, the interval is not cleared and the next firing
    invokes it again. *)
Theorem monitorPickupZone_arrives_twice (tripId : string) (center : LatLng)
    (radius : option R) (w : World) (p : LatLng) (e : string) :
  isWithinGeofence p center (default 100%R radius) = true →
  let id := nextInterval (timers w) in
  let w0 := (monitorPickupZone tripId center radius w).1 in
  let inside := PollRow (Some p) in
  let overlapping :=
    schedule [Fires id; Fires id; QueryAnswers 0 inside (Returns ());
              QueryAnswers 0 inside (Returns ())] (start w0) in
  let raising :=
    schedule [Fires id; QueryAnswers 0 inside (Throws e); Fires id;
              QueryAnswers 0 inside (Returns ())] (start w0) in
  (arrivals (world overlapping) = arrivals w ++ [id; id]
   ∧ polls (world overlapping) = polls w ++ [id; id]
   ∧ suspended overlapping = [])
  ∧ (arrivals (world raising) = arrivals w ++ [id; id]
     ∧ polls (world raising) = polls w ++ [id; id]
     ∧ suspended raising = []).
Proof.
  intros Hin id w0 inside overlapping raising.
  set (m := mkMonitor tripId center (default 100%R radius)).
  assert (Hm : intervals (timers w0) !! id = Some m).
  { subst w0. cbn. apply lookup_insert_eq. }
  assert (Hfire : ∀ w' susp, intervals (timers w') !! id = Some m →
            step (Fires id) (mkRunning w' susp)
            = mkRunning (mkWorld (service w') (supabase w') (navigator w')
                           (timers w') (polls w' ++ [id]) (arrivals w')
                           (console w'))
                (susp ++ [AwaitsQuery id m])).
  { intros w' susp Hw'. cbn. unfold callback_begin. cbn. by rewrite Hw'. }
  assert (Hresume : ∀ w' onArrival,
            callback_resume id m inside onArrival w'
            = let w'' := mkWorld (service w') (supabase w') (navigator w')
                           (timers w') (polls w') (arrivals w' ++ [id])
                           (console w') in
              match onArrival with
              | Returns _ => clearInterval id w''
              | Throws _ => w''
              end).
  { intros w' onArrival. unfold callback_resume. cbn. by rewrite Hin. }
  assert (Hanswer : ∀ w' rest onArrival,
            step (QueryAnswers 0 inside onArrival)
              (mkRunning w' (AwaitsQuery id m :: rest))
            = mkRunning (callback_resume id m inside onArrival w') rest)
    by done.
  assert (Hp0 : polls w0 = polls w) by done.
  assert (Ha0 : arrivals w0 = arrivals w) by done.
  clearbody w0. split.
  - subst overlapping. unfold schedule, start. cbn [foldl].
    rewrite (Hfire w0 [] Hm). rewrite Hfire by exact Hm. cbn [app].
    rewrite !Hanswer, !Hresume.
    cbn. rewrite Hp0, Ha0, <- !app_assoc. done.
  - subst raising. unfold schedule, start. cbn [foldl].
    rewrite (Hfire w0 [] Hm). cbn [app].
    rewrite Hanswer, Hresume. cbv zeta.
    rewrite Hfire by exact Hm. cbn [app].
    rewrite Hanswer, Hresume.
    cbn. rewrite Hp0, Ha0, <- !app_assoc. done.
Qed.

(** Two firings overlap while the driver stands at the pickup point. *)
Lemma monitorPickupZone_arrives_twice_witness :
  let w0 := (monitorPickupZone "trip-1" origin None (init true)).1 in
  let inside := PollRow (Some origin) in
  arrivals (world (schedule [Fires 0; Fires 0;
                             QueryAnswers 0 inside (Returns ());
                             QueryAnswers 0 inside (Returns ())] (start w0)))
  = [0; 0].
Proof.
  intros w0 inside.
  assert (Hin : isWithinGeofence origin origin (default 100%R None) = true).
  { apply isWithinGeofence_self. cbn. lra. }
  exact (proj1 (proj1 (monitorPickupZone_arrives_twice "trip-1" origin None
                         (init true) origin "boom" Hin))).
Defined.

End Overlap.

(** ** The geofence test on doubles *)

Section GeoDoubleFacts.
Import GeoDouble.
Local Open Scope float_scope.

(** A comparison with NaN is false. *)
Lemma leb_nan (r : float) : (nan <=? r) = false.
Proof. rewrite leb_spec. reflexivity. Qed.

(** C9. For the two opposite points 7.36 N 0 E and 7.36 S 180 E, on any
    [Math] library that returns the correctly rounded sine and cosine at
    the three arguments the method passes and a NaN [atan2] for a NaN
    argument, the haversine term is computed as 1 + 2^-52; its complement
    has no square root, the distance is NaN, and [isWithinGeofence]
    answers false for every radius, the infinite one included. In exact
    arithmetic no two points are further apart than 30,000 km. *)
Theorem isWithinGeofence_antipodal (math : MathLib) (radius : float) :
  Math_sin math (-0x1.07140fbbca520p-3) = -0x1.065afeeb46c2cp-3 →
  Math_cos math 0x1.07140fbbca520p-3 = 0x1.fbc81390bdb00p-1 →
  Math_cos math (-0x1.07140fbbca520p-3) = 0x1.fbc81390bdb00p-1 →
  Math_sin math 0x1.921fb54442d18p+0 = 1 →
  (∀ y, Math_atan2 math y nan = nan) →
  haversineTerm math north south = 0x1.0000000000001p+0
  ∧ isWithinGeofence math north south radius = false
  ∧ ∀ p c : GeoMath.LatLng, (GeoMath.distanceMeters p c <= 30000000)%R.
Proof.
  intros Hsin Hcos1 Hcos2 Hsin90 Hatan2.
  assert (Ha : haversineTerm math north south = 0x1.0000000000001p+0).
  { unfold haversineTerm. cbv zeta.
    change ((lat south - lat north) * Math_PI / 180 / 2)
      with (-0x1.07140fbbca520p-3).
    change (lat north * Math_PI / 180) with 0x1.07140fbbca520p-3.
    change (lat south * Math_PI / 180) with (-0x1.07140fbbca520p-3).
    change ((lng south - lng north) * Math_PI / 180 / 2)
      with 0x1.921fb54442d18p+0.
    rewrite Hsin, Hcos1, Hcos2, Hsin90. reflexivity. }
  split; [exact Ha |]. split.
  - unfold isWithinGeofence. cbv zeta. rewrite Ha.
    change (Math_sqrt (1 - 0x1.0000000000001p+0)) with nan.
    rewrite Hatan2.
    change (6371e3 * (2 * nan)) with nan. apply leb_nan.
  - intros p c. pose proof (distanceMeters_bounds p c) as [_ Hle].
    pose proof PI_4. lra.
Qed.

(** The same on the sample library, for an unbounded radius. *)
Lemma isWithinGeofence_antipodal_witness :
  isWithinGeofence sampleMath north south infinity = false.
Proof.
  exact (proj1 (proj2 (isWithinGeofence_antipodal sampleMath infinity
                         eq_refl eq_refl eq_refl eq_refl (λ y, eq_refl)))).
Defined.

End GeoDoubleFacts.
